(** * MI and GMI of a QAM constellation over AWGN: qam_gmi_mex.c

    A shallow embedding of [src/qam_gmi_mex.c].

    - [int] and [unsigned int] are 32 bits wide.  They are modelled as [Z]:
      unsigned arithmetic wraps modulo [2^32], signed arithmetic that leaves
      the range of [int], a shift by a count of 32 or more, and an array read
      outside the array are undefined in C and make the embedded function
      return [None].
    - [double] is modelled by the real numbers [R] and [double complex] by
      pairs of reals: the development verifies the exact-arithmetic reading of
      the code, not its rounding behaviour.
    - A [for] loop is a fold over the list of the values of its counter that
      threads the variables the body assigns. *)

From Stdlib Require Import String ZArith QArith Qreals List Bool Lia.
From Stdlib Require Import Reals Lra Permutation.
Import ListNotations.

Local Open Scope Z_scope.

(** ** The error monad of undefined behaviour *)

Definition bind {A B : Type} (o : option A) (f : A -> option B) : option B :=
  match o with
  | Some a => f a
  | None => None
  end.

Notation "x <- e ;; k" := (bind e (fun x => k))
  (at level 61, e at next level, right associativity).

(** ** 32-bit integers *)

Module CInt.

Definition INT_MAX : Z := 2 ^ 31 - 1.
Definition UINT_MOD : Z := 2 ^ 32.

(** Conversion to [unsigned int]: reduction modulo [2^32]. *)
Definition to_uint (z : Z) : Z := z mod UINT_MOD.

(** Conversion of an [unsigned int] to [int]: the two's complement reading. *)
Definition to_int (z : Z) : Z := (z + 2 ^ 31) mod UINT_MOD - 2 ^ 31.

(** [a << n] on [int]: defined when [a] is not negative, the count is below
    the width and [a * 2^n] is representable. *)
Definition shl_int (a n : Z) : option Z :=
  if (0 <=? a) && (0 <=? n) && (n <? 32) && (Z.shiftl a n <=? INT_MAX)
  then Some (Z.shiftl a n)
  else None.

(** [a << n] on [unsigned int], for a count below the width: wraps. *)
Definition shl_uint (a n : Z) : option Z :=
  if (0 <=? n) && (n <? 32) then Some (to_uint (Z.shiftl a n)) else None.

(** [(int) log2(M)] for an [int M]: the binary logarithm rounded towards
    zero; for [M <= 0] the logarithm is infinite or not a number and the
    conversion is undefined. *)
Definition int_log2 (M : Z) : option Z :=
  if 0 <? M then Some (Z.log2 M) else None.

End CInt.

Import CInt.

(** ** insert_zero *)

(** [unsigned int insert_zero(unsigned int i, unsigned int k, unsigned int nb)]
<<
    left = (i<<1) & (  ( (1<<(nb-k)) - 1)<<(k+1) );
    right = i & ((1<<k)-1);
    b0 = left | right;
>>
    The constants [1] are [int], so the masks are built in [int] arithmetic
    and converted to [unsigned int] by [&]. *)
Definition insert_zero (i k nb : Z) : option Z :=
  p <- shl_int 1 (to_uint (nb - k)) ;;
  mask <- shl_int (p - 1) (to_uint (k + 1)) ;;
  i2 <- shl_uint i 1 ;;
  q <- shl_int 1 k ;;
  let left := Z.land i2 (to_uint mask) in
  let right := Z.land i (to_uint (q - 1)) in
  Some (Z.lor left right).

(** The bit-insertion formula of the specification, on unbounded integers:
    [mask_above k] selects the bit positions [k+1 .. m], [mask_below k] the
    positions [0 .. k-1]. *)
Definition mask_above (k m : Z) : Z := Z.shiftl (Z.ones (m - k)) (k + 1).
Definition mask_below (k : Z) : Z := Z.ones k.

Definition BitSubsetIndexer_formula (i k m : Z) : Z :=
  Z.lor (Z.land (Z.shiftl i 1) (mask_above k m)) (Z.land i (mask_below k)).

(** The claim about [insert_zero] for one label width [m] and position [k]:
    on the compact indices it is defined and equal to the formula, it lands in
    the [m]-bit values whose bit [k] is clear, it never repeats and it omits
    none of them. *)
Definition BitSubsetIndexer_bijection (k m : Z) : Prop :=
  (forall i, 0 <= i < 2 ^ (m - 1) ->
     insert_zero i k m = Some (BitSubsetIndexer_formula i k m) /\
     0 <= BitSubsetIndexer_formula i k m < 2 ^ m /\
     Z.testbit (BitSubsetIndexer_formula i k m) k = false) /\
  (forall i j, 0 <= i < 2 ^ (m - 1) -> 0 <= j < 2 ^ (m - 1) ->
     insert_zero i k m = insert_zero j k m -> i = j) /\
  (forall v, 0 <= v < 2 ^ m -> Z.testbit v k = false ->
     exists i, 0 <= i < 2 ^ (m - 1) /\ insert_zero i k m = Some v).

(** The inverse of the formula: drop bit [k] and close the gap. *)
Definition remove_bit (v k : Z) : Z :=
  Z.lor (Z.shiftl (Z.shiftr v (k + 1)) k) (Z.land v (Z.ones k)).

(** ** Loops and arrays *)

(** The values [0, 1, ..., n-1] of the counter of [for(i=0; i<n; i++)]. *)
Definition range (n : Z) : list Z := map Z.of_nat (seq 0 (Z.to_nat n)).

(** A loop body is run on each counter value in turn; an undefined step makes
    the loop undefined. *)
Fixpoint for_each {A I : Type} (l : list I) (body : I -> A -> option A)
    (acc : A) : option A :=
  match l with
  | [] => Some acc
  | i :: l' =>
      match body i acc with
      | Some acc' => for_each l' body acc'
      | None => None
      end
  end.

Definition for_loop {A : Type} (n : Z) (body : Z -> A -> option A) (acc : A)
    : option A :=
  for_each (range n) body acc.

(** [a[i]] for an [int i]: undefined outside the array. *)
Definition read {A : Type} (a : list A) (i : Z) : option A :=
  if i <? 0 then None else nth_error a (Z.to_nat i).

Fixpoint set_nth {A : Type} (a : list A) (n : nat) (v : A) : option (list A) :=
  match a, n with
  | [], _ => None
  | _ :: t, O => Some (v :: t)
  | h :: t, S n' =>
      match set_nth t n' v with
      | Some t' => Some (h :: t')
      | None => None
      end
  end.

(** [a[i] = v] for an [int i]: undefined outside the array. *)
Definition write {A : Type} (a : list A) (i : Z) (v : A) : option (list A) :=
  if i <? 0 then None else set_nth a (Z.to_nat i) v.

(** ** Real and complex arithmetic *)

Local Open Scope R_scope.

(** [double complex] *)
Record complex : Type := mkc { Re : R; Im : R }.

Definition of_real (r : R) : complex := mkc r 0.
Definition I : complex := mkc 0 1.
Definition cadd (a b : complex) : complex := mkc (Re a + Re b) (Im a + Im b).
Definition csub (a b : complex) : complex := mkc (Re a - Re b) (Im a - Im b).
Definition cmul (a b : complex) : complex :=
  mkc (Re a * Re b - Im a * Im b) (Re a * Im b + Im a * Re b).
Definition creal (z : complex) : R := Re z.
Definition cabs (z : complex) : R := sqrt (Re z * Re z + Im z * Im z).

(** [pow(a, 2.0)] *)
Definition pow_2 (a : R) : R := a * a.
(** [pow(10, y)] *)
Definition pow_10 (y : R) : R := Rpower 10 y.
Definition log2 (a : R) : R := ln a / ln 2.
Definition M_PI : R := PI.

(** ** Gauss-Hermite parameters *)

Definition N_GH : Z := 10.

Definition x : list R :=
  [ -3.436159118837737603327;
    -2.532731674232789796409;
    -1.756683649299881773451;
    -1.036610829789513654178;
    -0.3429013272237046087892;
    0.3429013272237046087892;
    1.036610829789513654178;
    1.756683649299881773451;
    2.532731674232789796409;
    3.436159118837737603327 ].

Definition w : list R :=
  [ 7.64043285523262062916E-6;
    0.001343645746781232692202;
    0.0338743944554810631362;
    0.2401386110823146864165;
    0.6108626337353257987836;
    0.6108626337353257987836;
    0.2401386110823146864165;
    0.03387439445548106313617;
    0.001343645746781232692202;
    7.64043285523262062916E-6 ].

(** [x[l]] and [w[l]]: the tables have [N_GH] entries and are only indexed by
    loop counters below [N_GH]. *)
Definition x_at (l : Z) : R := nth (Z.to_nat l) x 0.
Definition w_at (l : Z) : R := nth (Z.to_nat l) w 0.

(** ** symbol_energy *)

(** [double symbol_energy(const double complex *C, int M)] *)
Definition symbol_energy (C : list complex) (M : Z) : option R :=
  Es <- for_loop M
          (fun i Es => c <- read C i ;; Some (Es + pow_2 (cabs c))) 0 ;;
  Some (Es / IZR M).

(** ** qam_eval_mi *)

(** The summand shared by the three inner loops, for the difference
    [a - b] of two constellation points:
<<
    exp(-(pow(cabs(a-b),2.0) - 2*s*creal((x[l1]+I*x[l2])*(a-b)))/pow(s,2.0))
>>
    The division of the reals is total; the definition follows the code for
    [s <> 0] only, which divides by zero at [s = 0]. *)
Definition lik (s : R) (l1 l2 : Z) (a b : complex) : R :=
  exp (- (pow_2 (cabs (csub a b))
          - 2 * s * creal (cmul (cadd (of_real (x_at l1))
                                      (cmul I (of_real (x_at l2))))
                                (csub a b)))
       / pow_2 s).

(** The loop over [j] of [qam_eval_mi]: the value [tmp] whose logarithm is
    taken. *)
Definition mi_tmp (C : list complex) (M : Z) (s : R) (i l1 l2 : Z)
    : option R :=
  for_loop M
    (fun j tmp => cj <- read C j ;; ci <- read C i ;;
                  Some (tmp + lik s l1 l2 cj ci)) 0.

(** [double qam_eval_mi(const double complex *C, int M, double s)] *)
Definition qam_eval_mi (C : list complex) (M : Z) (s : R) : option R :=
  MI <- for_loop M (fun i MI =>
          for_loop N_GH (fun l1 MI =>
            for_loop N_GH (fun l2 MI =>
              tmp <- mi_tmp C M s i l1 l2 ;;
              Some (MI - w_at l1 * w_at l2 * log2 tmp)) MI) MI) 0 ;;
  Some (MI / (IZR M * M_PI) + log2 (IZR M)).

(** ** qam_eval_gmi *)

(** [insert_zero(i, k, m) + (b<<k)], stored in an [int]: the [int] arguments
    are converted to [unsigned int], the sum is unsigned. *)
Definition gmi_index (i k m b : Z) : option Z :=
  z <- insert_zero (to_uint i) (to_uint k) (to_uint m) ;;
  sh <- shl_int b k ;;
  Some (to_int (to_uint (z + to_uint sh))).

(** Numerator of the logarithm. *)
Definition gmi_num (C : list complex) (M : Z) (s : R) (bi l1 l2 : Z)
    : option R :=
  for_loop M
    (fun j tmp_num => cbi <- read C bi ;; cj <- read C j ;;
                      Some (tmp_num + lik s l1 l2 cbi cj)) 0.

(** Denominator of the logarithm. *)
Definition gmi_den (C : list complex) (M : Z) (s : R) (m k b bi l1 l2 : Z)
    : option R :=
  for_loop (Z.quot M 2)
    (fun j tmp_den => bj <- gmi_index j k m b ;;
                      cbi <- read C bi ;; cbj <- read C bj ;;
                      Some (tmp_den + lik s l1 l2 cbi cbj)) 0.

(** [double qam_eval_gmi(const double complex *C, int M, double s)] *)
Definition qam_eval_gmi (C : list complex) (M : Z) (s : R) : option R :=
  m <- int_log2 M ;;
  GMI <- for_loop m (fun k GMI =>
           for_loop 2 (fun b GMI =>
             for_loop (Z.quot M 2) (fun i GMI =>
               bi <- gmi_index i k m b ;;
               for_loop N_GH (fun l1 GMI =>
                 for_loop N_GH (fun l2 GMI =>
                   tmp_num <- gmi_num C M s bi l1 l2 ;;
                   tmp_den <- gmi_den C M s m k b bi l1 l2 ;;
                   Some (GMI - w_at l1 * w_at l2 * log2 (tmp_num / tmp_den)))
                 GMI) GMI) GMI) GMI) 0 ;;
  Some (GMI / (IZR M * M_PI) + IZR m).

(** ** mexFunction *)

(** What a call hands back to the host: the identifier passed to
    [mexErrMsgIdAndTxt], which does not return, or the two output vectors. *)
Inductive outcome : Type :=
| MexError (id : string)
| Outputs (mi gmi : list R).

(** One iteration of the loop of [mexFunction], on the output vectors
    [out = (mi, gmi)]:
<<
    sigma = sqrt(Es) * pow(10,-snr[i]/20);
    mi[i] = qam_eval_mi(C, M, sigma);
    gmi[i] = qam_eval_gmi(C, M, sigma);
>> *)
Definition iteration (C : list complex) (M : Z) (Es : R) (snr : list R)
    (i : Z) (out : list R * list R) : option (list R * list R) :=
  snr_i <- read snr i ;;
  let sigma := sqrt Es * pow_10 (- snr_i / 20) in
  v <- qam_eval_mi C M sigma ;;
  mi' <- write (fst out) i v ;;
  g <- qam_eval_gmi C M sigma ;;
  gmi' <- write (snd out) i g ;;
  Some (mi', gmi').

(** [void mexFunction(int nlhs, mxArray *plhs[], int nrhs,
    const mxArray *prhs[])]
    on a constellation [C] ([prhs[0]]) and a list [snr] ([prhs[1]]).

    The iterations of the [omp parallel for] loop share [C], [M], [Es] and
    the output vectors, and [sigma] is private; the order in which the
    runtime executes them is the parameter [schedule].  The sizes are
    [size_t]; [M] is converted to [int] at the calls. *)
Definition mexFunction (schedule : list Z) (nlhs nrhs : Z)
    (C : list complex) (snr : list R) : option outcome :=
  if negb (nrhs =? 2)%Z then Some (MexError "dsp-library:qam_gmi_mex:nrhs")
  else if (2 <? nlhs)%Z then Some (MexError "dsp-library:qam_gmi_mex:nlhs")
  else
    let M := Z.of_nat (length C) in
    let mi := repeat 0 (length snr) in
    let gmi := repeat 0 (length snr) in
    Es <- symbol_energy C (to_int M) ;;
    out <- for_each schedule (iteration C (to_int M) Es snr) (mi, gmi) ;;
    Some (Outputs (fst out) (snd out)).

(** The pair of outputs at index [j] of a call, when it returned outputs. *)
Definition output_at (r : option outcome) (j : nat) : option (R * R) :=
  match r with
  | Some (Outputs mi gmi) =>
      match nth_error mi j, nth_error gmi j with
      | Some a, Some b => Some (a, b)
      | _, _ => None
      end
  | _ => None
  end.

(** ** The quantities of the specification *)

(** A finite sum. *)
Definition Rsum {I : Type} (l : list I) (f : I -> R) : R :=
  fold_right (fun i r => f i + r) 0 l.

(** [C_j], and [|z|^2]. *)
Definition C_at (C : list complex) (j : Z) : complex :=
  nth (Z.to_nat j) C (mkc 0 0).
Definition cnorm2 (z : complex) : R := Re z * Re z + Im z * Im z.

(** [exp(-(|d|^2 - 2 sigma Re[(x_l1 + j x_l2) d]) / sigma^2)] for a
    difference [d] of constellation points. *)
Definition spec_term (sigma : R) (l1 l2 : Z) (d : complex) : R :=
  exp (- (cnorm2 d - 2 * sigma * (x_at l1 * Re d - x_at l2 * Im d))
       / (sigma * sigma)).

(** [Es = (1/M) sum_i |C_i|^2] *)
Definition Es_spec (C : list complex) : R :=
  1 / INR (length C) * Rsum C cnorm2.

(** [T(i,l1,l2)]: the sum over all [M] symbols [j]. *)
Definition T_spec (C : list complex) (sigma : R) (i l1 l2 : Z) : R :=
  Rsum (range (Z.of_nat (length C)))
    (fun j => spec_term sigma l1 l2 (csub (C_at C j) (C_at C i))).

(** [MI]: each [w_l1 w_l2 log2 T] is subtracted from 0, the total is divided
    by [M pi] and [log2 M] is added. *)
Definition MI_spec (C : list complex) (sigma : R) : R :=
  let M := Z.of_nat (length C) in
  (0 - Rsum (range M) (fun i =>
         Rsum (range N_GH) (fun l1 =>
           Rsum (range N_GH) (fun l2 =>
             w_at l1 * w_at l2 * log2 (T_spec C sigma i l1 l2)))))
  / (IZR M * PI) + log2 (IZR M).

(** The symbols whose bit [k] equals [b]. *)
Definition bit_is (k b j : Z) : bool := Bool.eqb (Z.testbit j k) (b =? 1)%Z.

(** Numerator: the sum over all [M] symbols [j]; denominator: the same sum
    restricted to the symbols whose bit [k] equals [b]. *)
Definition num_spec (C : list complex) (sigma : R) (bi l1 l2 : Z) : R :=
  Rsum (range (Z.of_nat (length C)))
    (fun j => spec_term sigma l1 l2 (csub (C_at C bi) (C_at C j))).

Definition den_spec (C : list complex) (sigma : R) (k b bi l1 l2 : Z) : R :=
  Rsum (filter (bit_is k b) (range (Z.of_nat (length C))))
    (fun j => spec_term sigma l1 l2 (csub (C_at C bi) (C_at C j))).

(** [bi = BitSubsetIndexer(i,k,m) + (b<<k)] *)
Definition bi_spec (i k m b : Z) : Z :=
  (BitSubsetIndexer_formula i k m + Z.shiftl b k)%Z.

(** [GMI]: each [w_l1 w_l2 log2 (numerator/denominator)] is subtracted from
    0, the total is divided by [M pi] and [m] is added. *)
Definition GMI_spec (C : list complex) (m : Z) (sigma : R) : R :=
  let M := Z.of_nat (length C) in
  (0 - Rsum (range m) (fun k =>
         Rsum (range 2) (fun b =>
           Rsum (range (M / 2)) (fun i =>
             Rsum (range N_GH) (fun l1 =>
               Rsum (range N_GH) (fun l2 =>
                 w_at l1 * w_at l2 *
                 log2 (num_spec C sigma (bi_spec i k m b) l1 l2 /
                       den_spec C sigma k b (bi_spec i k m b) l1 l2)))))))
  / (IZR M * PI) + IZR m.

(** The claim that the logarithm of [qam_eval_gmi] is always taken of a
    well-defined quotient, for a constellation [C] of [M] points: every
    symbol index of the denominator loop lies in the range [0,M) of the
    numerator loop, the term of [bi] against itself is 1, and
    [numerator >= denominator >= 1], so that the quotient is at least 1 and
    the accumulated term is not positive. *)
Definition gmi_log_argument_safe (C : list complex) (M : Z) (s : R) : Prop :=
  forall m k b i l1 l2 : Z,
    int_log2 M = Some m ->
    (0 <= k < m)%Z -> (0 <= b <= 1)%Z -> (0 <= i < Z.quot M 2)%Z ->
    (forall j, (0 <= j < Z.quot M 2)%Z ->
       exists bj, gmi_index j k m b = Some bj /\ (0 <= bj < M)%Z) /\
    exists bi num den,
      gmi_index i k m b = Some bi /\
      lik s l1 l2 (C_at C bi) (C_at C bi) = 1 /\
      gmi_num C M s bi l1 l2 = Some num /\
      gmi_den C M s m k b bi l1 l2 = Some den /\
      1 <= den <= num /\
      1 <= num / den /\
      0 - w_at l1 * w_at l2 * log2 (num / den) <= 0.

(** ** The per-SNR evaluation *)

(** A list of evaluations, each of which may be undefined. *)
Fixpoint mapM {A B : Type} (f : A -> option B) (l : list A)
    : option (list B) :=
  match l with
  | [] => Some []
  | a :: l' =>
      b <- f a ;; bs <- mapM f l' ;; Some (b :: bs)
  end.

(** The noise level derived from the symbol energy and one SNR value, and
    the pair [(MI, GMI)] of both estimators at that noise level. *)
Definition sigma_of (Es snr_i : R) : R := sqrt Es * Rpower 10 (- snr_i / 20).

Definition point (C : list complex) (M : Z) (Es snr_i : R) : option (R * R) :=
  v <- qam_eval_mi C M (sigma_of Es snr_i) ;;
  g <- qam_eval_gmi C M (sigma_of Es snr_i) ;;
  Some (v, g).

(** ** Transformations of a constellation *)

(** The point [z] scaled by the real factor [a]. *)
Definition cscale (a : R) (z : complex) : complex :=
  mkc (a * Re z) (a * Im z).

(** ** Certified evaluation of the quadrature sums *)

(** Rational lower and upper bounds of [ln (exp a_1 + ... + exp a_n)] for
    rational [a_j], computed on fixed-point integers: the integer [m] stands
    for [m / 2^P].  They serve to evaluate the sums of both estimators on one
    constellation with enough precision to compare them. *)
Module Fx.

Local Open Scope Z_scope.















End Fx.












(** * Properties *)

Local Open Scope Z_scope.

(** ** Bits of the formula *)

Ltac bool_simpl :=
  repeat (progress
    (cbn [andb orb];
     rewrite ?andb_false_r, ?andb_true_r, ?orb_false_r, ?orb_true_r)).

Lemma testbit_mask_above k m n :
  0 <= k <= m -> 0 <= n ->
  Z.testbit (mask_above k m) n = (k + 1 <=? n) && (n <=? m).
Proof.
  intros Hk Hn. unfold mask_above.
  rewrite Z.shiftl_spec by lia.
  destruct (Z.leb_spec (k + 1) n) as [H1|H1].
  - rewrite Z.testbit_ones_nonneg by lia. cbn. lia.
  - cbn. apply Z.testbit_neg_r. lia.
Qed.

Lemma testbit_formula i k m n :
  0 <= k <= m -> 0 <= n ->
  Z.testbit (BitSubsetIndexer_formula i k m) n =
    (Z.testbit i (n - 1) && ((k + 1 <=? n) && (n <=? m)))
    || (Z.testbit i n && (n <? k)).
Proof.
  intros Hk Hn. unfold BitSubsetIndexer_formula, mask_below.
  rewrite Z.lor_spec, !Z.land_spec, testbit_mask_above by lia.
  rewrite Z.shiftl_spec by lia.
  rewrite Z.testbit_ones_nonneg by lia.
  reflexivity.
Qed.

Lemma testbit_above_pow2 a p n :
  0 <= a < 2 ^ p -> 0 <= p <= n -> Z.testbit a n = false.
Proof.
  intros Ha Hp.
  rewrite <- (Z.mod_small a (2 ^ p)) by assumption.
  apply Z.mod_pow2_bits_high. lia.
Qed.

Lemma lt_pow2_of_bits a p :
  0 <= a -> 0 <= p ->
  (forall n, p <= n -> Z.testbit a n = false) -> a < 2 ^ p.
Proof.
  intros Ha Hp Hbits.
  assert (E : a = a mod 2 ^ p).
  { apply Z.bits_inj'. intros n Hn.
    destruct (Z.lt_ge_cases n p) as [Hlt|Hge].
    - now rewrite Z.mod_pow2_bits_low.
    - rewrite Z.mod_pow2_bits_high by lia. now apply Hbits. }
  rewrite E. apply Z.mod_pos_bound. apply Z.pow_pos_nonneg; lia.
Qed.

Lemma formula_nonneg i k m : 0 <= i -> 0 <= BitSubsetIndexer_formula i k m.
Proof.
  intros Hi. unfold BitSubsetIndexer_formula.
  apply Z.lor_nonneg. split; apply Z.land_nonneg.
  - left. apply Z.shiftl_nonneg. exact Hi.
  - left. exact Hi.
Qed.

Lemma formula_range i k m :
  0 <= k < m -> 0 <= i < 2 ^ (m - 1) ->
  0 <= BitSubsetIndexer_formula i k m < 2 ^ m.
Proof.
  intros Hk Hi. split; [apply formula_nonneg; lia|].
  apply lt_pow2_of_bits; [apply formula_nonneg; lia|lia|].
  intros n Hn. rewrite testbit_formula by lia.
  rewrite (testbit_above_pow2 i (m - 1) (n - 1)) by lia.
  replace (n <? k) with false by (symmetry; apply Z.ltb_ge; lia).
  now bool_simpl.
Qed.

Lemma formula_bit_clear i k m :
  0 <= k <= m -> Z.testbit (BitSubsetIndexer_formula i k m) k = false.
Proof.
  intros Hk. rewrite testbit_formula by lia.
  replace (k + 1 <=? k) with false by (symmetry; apply Z.leb_gt; lia).
  rewrite Z.ltb_irrefl. now bool_simpl.
Qed.

(** Below [k] the formula keeps the bits of [i]; above [k] they move up. *)
Lemma formula_bit_low i k m n :
  0 <= k <= m -> 0 <= n < k ->
  Z.testbit (BitSubsetIndexer_formula i k m) n = Z.testbit i n.
Proof.
  intros Hk Hn. rewrite testbit_formula by lia.
  replace (k + 1 <=? n) with false by (symmetry; apply Z.leb_gt; lia).
  replace (n <? k) with true by (symmetry; apply Z.ltb_lt; lia).
  now bool_simpl.
Qed.

Lemma formula_bit_high i k m n :
  0 <= k <= m -> k <= n < m ->
  Z.testbit (BitSubsetIndexer_formula i k m) (n + 1) = Z.testbit i n.
Proof.
  intros Hk Hn. rewrite testbit_formula by lia.
  replace (k + 1 <=? n + 1) with true by (symmetry; apply Z.leb_le; lia).
  replace (n + 1 <=? m) with true by (symmetry; apply Z.leb_le; lia).
  replace (n + 1 <? k) with false by (symmetry; apply Z.ltb_ge; lia).
  replace (n + 1 - 1) with n by lia.
  now bool_simpl.
Qed.

Lemma formula_inj i j k m :
  0 <= k < m -> 0 <= i < 2 ^ (m - 1) -> 0 <= j < 2 ^ (m - 1) ->
  BitSubsetIndexer_formula i k m = BitSubsetIndexer_formula j k m -> i = j.
Proof.
  intros Hk Hi Hj E.
  apply Z.bits_inj'. intros n Hn.
  destruct (Z.lt_ge_cases n k) as [Hlow|Hhigh].
  - rewrite <- (formula_bit_low i k m n), <- (formula_bit_low j k m n) by lia.
    now rewrite E.
  - destruct (Z.lt_ge_cases n (m - 1)) as [Hin|Hout].
    + rewrite <- (formula_bit_high i k m n), <- (formula_bit_high j k m n)
        by lia.
      now rewrite E.
    + rewrite (testbit_above_pow2 i (m - 1) n),
        (testbit_above_pow2 j (m - 1) n) by lia.
      reflexivity.
Qed.

Lemma testbit_remove_bit v k n :
  0 <= k -> 0 <= n ->
  Z.testbit (remove_bit v k) n =
    if n <? k then Z.testbit v n else Z.testbit v (n + 1).
Proof.
  intros Hk Hn. unfold remove_bit.
  rewrite Z.lor_spec, Z.land_spec, Z.shiftl_spec by lia.
  rewrite Z.testbit_ones_nonneg by lia.
  destruct (Z.ltb_spec n k) as [Hlt|Hge].
  - rewrite Z.testbit_neg_r by lia. cbn. now rewrite andb_true_r.
  - rewrite Z.shiftr_spec by lia.
    replace (n - k + (k + 1)) with (n + 1) by lia.
    now bool_simpl.
Qed.

Lemma remove_bit_range v k m :
  0 <= k < m -> 0 <= v < 2 ^ m -> 0 <= remove_bit v k < 2 ^ (m - 1).
Proof.
  intros Hk Hv.
  assert (Hnn : 0 <= remove_bit v k).
  { unfold remove_bit. apply Z.lor_nonneg. split.
    - apply Z.shiftl_nonneg, Z.shiftr_nonneg. lia.
    - apply Z.land_nonneg. left. lia. }
  split; [exact Hnn|].
  apply lt_pow2_of_bits; [exact Hnn|lia|].
  intros n Hn. rewrite testbit_remove_bit by lia.
  replace (n <? k) with false by (symmetry; apply Z.ltb_ge; lia).
  apply (testbit_above_pow2 v m); lia.
Qed.

Lemma formula_remove_bit v k m :
  0 <= k < m -> 0 <= v < 2 ^ m -> Z.testbit v k = false ->
  BitSubsetIndexer_formula (remove_bit v k) k m = v.
Proof.
  intros Hk Hv Hbit.
  apply Z.bits_inj'. intros n Hn.
  rewrite testbit_formula by lia.
  destruct (Z.ltb_spec n k) as [Hlt|Hge].
  - replace (k + 1 <=? n) with false by (symmetry; apply Z.leb_gt; lia).
    bool_simpl. rewrite (testbit_remove_bit v k n) by lia.
    now replace (n <? k) with true by (symmetry; apply Z.ltb_lt; lia).
  - bool_simpl.
    destruct (Z.leb_spec (k + 1) n) as [Hab|Heq].
    + rewrite testbit_remove_bit by lia.
      replace (n - 1 <? k) with false by (symmetry; apply Z.ltb_ge; lia).
      replace (n - 1 + 1) with n by lia.
      destruct (Z.leb_spec n m) as [Hin|Hout].
      * now bool_simpl.
      * bool_simpl. symmetry. apply (testbit_above_pow2 v m); lia.
    + bool_simpl. replace n with k by lia. now rewrite Hbit.
Qed.

(** ** insert_zero on the widths an [int] size can have *)

Lemma to_uint_small z : 0 <= z < 2 ^ 32 -> to_uint z = z.
Proof. intros H. unfold to_uint, UINT_MOD. now apply Z.mod_small. Qed.

Lemma to_int_small z : 0 <= z < 2 ^ 31 -> to_int z = z.
Proof.
  intros H. unfold to_int, UINT_MOD.
  rewrite Z.mod_small by lia. lia.
Qed.

Lemma pow2_le_30 n : 0 <= n <= 30 -> 0 < 2 ^ n <= 2 ^ 30.
Proof.
  intros H. split.
  - apply Z.pow_pos_nonneg; lia.
  - apply Z.pow_le_mono_r; lia.
Qed.

Lemma shl_int_spec a n :
  0 <= a -> 0 <= n < 32 -> a * 2 ^ n <= INT_MAX ->
  shl_int a n = Some (a * 2 ^ n).
Proof.
  intros Ha Hn Hmax. unfold shl_int.
  rewrite Z.shiftl_mul_pow2 by lia.
  replace (0 <=? a) with true by (symmetry; apply Z.leb_le; lia).
  replace (0 <=? n) with true by (symmetry; apply Z.leb_le; lia).
  replace (n <? 32) with true by (symmetry; apply Z.ltb_lt; lia).
  replace (a * 2 ^ n <=? INT_MAX) with true by (symmetry; apply Z.leb_le; lia).
  reflexivity.
Qed.

Lemma shl_int_one n : 0 <= n <= 30 -> shl_int 1 n = Some (2 ^ n).
Proof.
  intros H. rewrite shl_int_spec; try lia.
  - f_equal. lia.
  - pose proof (pow2_le_30 n H). unfold INT_MAX. lia.
Qed.

Lemma mask_above_bound k m :
  0 <= k < m -> m <= 30 -> 0 <= mask_above k m <= 2 ^ 31 - 2.
Proof.
  intros Hk Hm. unfold mask_above.
  rewrite Z.shiftl_mul_pow2, Z.ones_equiv by lia.
  assert (H1 : 2 ^ (m - k) * 2 ^ (k + 1) = 2 ^ (m + 1)).
  { rewrite <- Z.pow_add_r by lia. f_equal. lia. }
  assert (H2 : 2 ^ (m + 1) <= 2 ^ 31) by (apply Z.pow_le_mono_r; lia).
  assert (H3 : 2 <= 2 ^ (k + 1)).
  { change 2 with (2 ^ 1) at 1. apply Z.pow_le_mono_r; lia. }
  assert (H4 : 0 < 2 ^ (m - k)) by (apply Z.pow_pos_nonneg; lia).
  nia.
Qed.

Lemma insert_zero_formula i k m :
  0 <= k < m -> m <= 30 -> 0 <= i < 2 ^ 31 ->
  insert_zero i k m = Some (BitSubsetIndexer_formula i k m).
Proof.
  intros Hk Hm Hi. unfold insert_zero.
  rewrite (to_uint_small (m - k)) by lia.
  rewrite shl_int_one by lia. cbn [bind].
  rewrite (to_uint_small (k + 1)) by lia.
  replace (2 ^ (m - k) - 1) with (Z.ones (m - k))
    by (rewrite Z.ones_equiv; lia).
  pose proof (mask_above_bound k m Hk Hm) as Hmask.
  assert (Hones : 0 <= Z.ones (m - k)).
  { rewrite Z.ones_equiv. pose proof (pow2_le_30 (m - k)). lia. }
  rewrite shl_int_spec; try lia.
  2:{ unfold mask_above in Hmask. rewrite Z.shiftl_mul_pow2 in Hmask by lia.
      unfold INT_MAX. lia. }
  cbn [bind]. unfold shl_uint. cbn [Z.leb Z.ltb Z.compare andb bind].
  rewrite shl_int_one by lia. cbn [bind].
  rewrite <- Z.shiftl_mul_pow2 by lia. fold (mask_above k m).
  replace (2 ^ k - 1) with (mask_below k)
    by (unfold mask_below; rewrite Z.ones_equiv; lia).
  rewrite (to_uint_small (mask_above k m)) by lia.
  rewrite (to_uint_small (mask_below k)).
  2:{ unfold mask_below. rewrite Z.ones_equiv.
      pose proof (pow2_le_30 k). lia. }
  rewrite to_uint_small.
  2:{ rewrite Z.shiftl_mul_pow2 by lia. lia. }
  reflexivity.
Qed.

(** The result of [insert_zero] is an [unsigned int]. *)
Lemma land_to_uint_range a z : 0 <= Z.land a (to_uint z) < 2 ^ 32.
Proof.
  assert (Hu : 0 <= to_uint z < 2 ^ 32).
  { unfold to_uint, UINT_MOD. apply Z.mod_pos_bound. lia. }
  assert (Hnn : 0 <= Z.land a (to_uint z)).
  { apply Z.land_nonneg. right. lia. }
  split; [exact Hnn|].
  apply lt_pow2_of_bits; [exact Hnn|lia|].
  intros n Hn. rewrite Z.land_spec.
  rewrite (testbit_above_pow2 (to_uint z) 32 n) by lia.
  apply andb_false_r.
Qed.

Lemma insert_zero_uint i k nb v :
  insert_zero i k nb = Some v -> 0 <= v < 2 ^ 32.
Proof.
  unfold insert_zero.
  destruct (shl_int 1 (to_uint (nb - k))) as [p|]; [|discriminate].
  cbn [bind].
  destruct (shl_int (p - 1) (to_uint (k + 1))) as [mask|]; [|discriminate].
  cbn [bind].
  destruct (shl_uint i 1) as [i2|]; [|discriminate]. cbn [bind].
  destruct (shl_int 1 k) as [q|]; [|discriminate]. cbn [bind].
  intros E. injection E as <-.
  pose proof (land_to_uint_range i2 mask) as H1.
  pose proof (land_to_uint_range i (q - 1)) as H2.
  assert (Hnn : 0 <= Z.lor (Z.land i2 (to_uint mask))
                        (Z.land i (to_uint (q - 1)))).
  { apply Z.lor_nonneg. lia. }
  split; [exact Hnn|].
  apply lt_pow2_of_bits; [exact Hnn|lia|].
  intros n Hn. rewrite Z.lor_spec.
  rewrite (testbit_above_pow2 _ 32 n H1), (testbit_above_pow2 _ 32 n H2) by lia.
  reflexivity.
Qed.

Lemma pow2_pred_le_30 m : 1 <= m <= 30 -> 0 < 2 ^ (m - 1) < 2 ^ 31.
Proof.
  intros H. split.
  - apply Z.pow_pos_nonneg; lia.
  - apply Z.pow_lt_mono_r; lia.
Qed.

(** C3, as amended: for every label width [1 <= m <= 30] (the widths of a
    size [M = 2^m] held in an [int]) and every bit position [0 <= k < m],
    [insert_zero] restricted to the compact indices [0 <= i < 2^(m-1)] equals
    the bit-insertion formula
    [((i<<1) & mask_above(k)) | (i & mask_below(k))], and is a bijection onto
    exactly the [m]-bit values whose bit [k] is 0: no repeats, no
    omissions. *)
Theorem insert_zero_bijection :
  forall m k, 1 <= m <= 30 -> 0 <= k < m -> BitSubsetIndexer_bijection k m.
Proof.
  intros m k Hm Hk.
  pose proof (pow2_pred_le_30 m Hm) as Hp.
  repeat split.
  - apply insert_zero_formula; lia.
  - apply formula_range; lia.
  - apply formula_range; lia.
  - apply formula_bit_clear; lia.
  - intros i j Hi Hj E.
    rewrite !insert_zero_formula in E by lia.
    injection E as E. now apply (formula_inj i j k m).
  - intros v Hv Hbit. exists (remove_bit v k).
    pose proof (remove_bit_range v k m Hk Hv) as Hr.
    split; [exact Hr|].
    rewrite insert_zero_formula by lia.
    f_equal. now apply formula_remove_bit.
Qed.

Lemma insert_zero_bijection_witness : BitSubsetIndexer_bijection 1 3.
Proof. apply (insert_zero_bijection 3 1); lia. Defined.

(** The bound 30 is the last width at which every shift is defined: for the
    widths 31 and 32 the mask [1 << (nb-k)] at [k = 0] is not representable
    in an [int], or shifts by the full width. *)
Lemma insert_zero_undefined_31_32 :
  insert_zero 0 0 31 = None /\ insert_zero 0 0 32 = None.
Proof. split; reflexivity. Qed.

(** C3, as stated, fails: the label width [m = 33] is a value of the
    parameter type, the 33-bit value [2^32] has bit 0 clear, and no call
    returns it, since the result is an [unsigned int] (and the shift
    [1 << 33] is undefined). *)
Lemma insert_zero_bijection_fails_at_33 : ~ BitSubsetIndexer_bijection 0 33.
Proof.
  intros [_ [_ Hsurj]].
  destruct (Hsurj (2 ^ 32)) as [i [_ Hi]].
  - split; [|reflexivity]. lia.
  - reflexivity.
  - apply insert_zero_uint in Hi. lia.
Qed.

(** ** Loops *)

Section Loops.

Context {A I : Type}.

Lemma for_each_some (l : list I) (body : I -> A -> option A)
    (f : I -> A -> A) :
  (forall i a, In i l -> body i a = Some (f i a)) ->
  forall acc,
    for_each l body acc = Some (fold_left (fun a i => f i a) l acc).
Proof.
  induction l as [|i l IH]; intros Hbody acc; cbn.
  - reflexivity.
  - rewrite Hbody by (now left).
    apply IH. intros j a Hj. apply Hbody. now right.
Qed.

Lemma for_each_none (l : list I) (body : I -> A -> option A) (i : I) :
  In i l -> (forall a, body i a = None) ->
  forall acc, for_each l body acc = None.
Proof.
  induction l as [|j l IH]; intros Hin Hnone acc; cbn.
  - contradiction.
  - destruct Hin as [->|Hin].
    + now rewrite Hnone.
    + destruct (body j acc); [now apply IH|reflexivity].
Qed.

End Loops.

(** Whether a loop is defined does not depend on the values it accumulates,
    when that holds of its body. *)
Lemma for_each_same_def {A B I : Type} (l : list I)
    (body : I -> A -> option A) (body' : I -> B -> option B) :
  (forall i a b, In i l -> (body i a = None <-> body' i b = None)) ->
  forall a b, for_each l body a = None <-> for_each l body' b = None.
Proof.
  induction l as [|i l IH]; intros Hbody a b; cbn.
  - split; discriminate.
  - pose proof (Hbody i a b (or_introl eq_refl)) as Hi.
    destruct (body i a) as [a'|], (body' i b) as [b'|].
    + apply IH. intros j a0 b0 Hj. apply Hbody. now right.
    + destruct Hi as [_ Hi]. discriminate (Hi eq_refl).
    + destruct Hi as [Hi _]. discriminate (Hi eq_refl).
    + tauto.
Qed.

Lemma in_range j n : In j (range n) <-> 0 <= j < n.
Proof.
  unfold range. rewrite in_map_iff. split.
  - intros [k [<- Hk]]. apply in_seq in Hk. lia.
  - intros Hj. exists (Z.to_nat j). split; [lia|]. apply in_seq. lia.
Qed.

Lemma NoDup_range n : NoDup (range n).
Proof.
  unfold range. apply Finite.Injective_map_NoDup.
  - intros a b. apply Nat2Z.inj.
  - apply seq_NoDup.
Qed.

Lemma range_of_nat (n : nat) :
  range (Z.of_nat n) = map Z.of_nat (seq 0 n).
Proof. unfold range. now rewrite Nat2Z.id. Qed.

Lemma read_some {A : Type} (a : list A) (i : Z) (d : A) :
  0 <= i < Z.of_nat (length a) ->
  read a i = Some (nth (Z.to_nat i) a d).
Proof.
  intros Hi. unfold read.
  replace (i <? 0) with false by (symmetry; apply Z.ltb_ge; lia).
  apply nth_error_nth'. lia.
Qed.

(** ** Sums *)

Section Sums.

Local Open Scope R_scope.

Context {I : Type}.

Lemma Rsum_nil (f : I -> R) : Rsum [] f = 0.
Proof. reflexivity. Qed.

Lemma Rsum_cons (i : I) (l : list I) (f : I -> R) :
  Rsum (i :: l) f = f i + Rsum l f.
Proof. reflexivity. Qed.

Lemma Rsum_ext (l : list I) (f g : I -> R) :
  (forall i, In i l -> f i = g i) -> Rsum l f = Rsum l g.
Proof.
  induction l as [|i l IH]; intros H; rewrite ?Rsum_cons; try rewrite Rsum_nil.
  - reflexivity.
  - rewrite (H i) by (now left). rewrite IH; [reflexivity|].
    intros j Hj. apply H. now right.
Qed.

Lemma Rsum_nonneg (l : list I) (f : I -> R) :
  (forall i, In i l -> 0 <= f i) -> 0 <= Rsum l f.
Proof.
  induction l as [|i l IH]; intros H; rewrite ?Rsum_cons; try rewrite Rsum_nil.
  - lra.
  - assert (0 <= f i) by (apply H; now left).
    assert (0 <= Rsum l f) by (apply IH; intros j Hj; apply H; now right).
    lra.
Qed.

Lemma Rsum_ge_term (l : list I) (f : I -> R) (i : I) :
  (forall j, In j l -> 0 <= f j) -> In i l -> f i <= Rsum l f.
Proof.
  induction l as [|j l IH]; intros H Hin; rewrite ?Rsum_cons.
  - contradiction.
  - assert (Hj : 0 <= f j) by (apply H; now left).
    assert (Hl : 0 <= Rsum l f).
    { apply Rsum_nonneg. intros j' Hj'. apply H. now right. }
    destruct Hin as [->|Hin].
    + lra.
    + assert (f i <= Rsum l f).
      { apply IH; [|exact Hin]. intros j' Hj'. apply H. now right. }
      lra.
Qed.

Lemma Rsum_filter_le (l : list I) (p : I -> bool) (f : I -> R) :
  (forall i, In i l -> 0 <= f i) -> Rsum (filter p l) f <= Rsum l f.
Proof.
  induction l as [|i l IH]; intros H; cbn [filter];
    rewrite ?Rsum_cons, ?Rsum_nil.
  - lra.
  - assert (Hi : 0 <= f i) by (apply H; now left).
    assert (Hl : Rsum (filter p l) f <= Rsum l f).
    { apply IH. intros j Hj. apply H. now right. }
    destruct (p i); rewrite ?Rsum_cons; lra.
Qed.

Lemma Rsum_Permutation (l l' : list I) (f : I -> R) :
  Permutation l l' -> Rsum l f = Rsum l' f.
Proof.
  induction 1; rewrite ?Rsum_cons; try lra.
Qed.

Lemma Rsum_map {J : Type} (g : J -> I) (l : list J) (f : I -> R) :
  Rsum (map g l) f = Rsum l (fun j => f (g j)).
Proof.
  induction l as [|j l IH]; cbn [map]; rewrite ?Rsum_cons;
    [reflexivity|]. now rewrite IH.
Qed.

Lemma fold_left_add (l : list I) (g : I -> R) (acc : R) :
  fold_left (fun a i => a + g i) l acc = acc + Rsum l g.
Proof.
  revert acc. induction l as [|i l IH]; intros acc; cbn [fold_left].
  - rewrite Rsum_nil. lra.
  - rewrite IH, Rsum_cons. lra.
Qed.

(** A loop whose body adds [g i] to the accumulator adds the sum. *)
Lemma for_each_add (l : list I) (body : I -> R -> option R) (g : I -> R) :
  (forall i a, In i l -> body i a = Some (a + g i)) ->
  forall acc, for_each l body acc = Some (acc + Rsum l g).
Proof.
  intros H acc.
  rewrite (for_each_some l body (fun i a => a + g i) H).
  now rewrite fold_left_add.
Qed.

(** A loop whose body subtracts [g i] from the accumulator subtracts the
    sum. *)
Lemma for_each_sub (l : list I) (body : I -> R -> option R) (g : I -> R) :
  (forall i a, In i l -> body i a = Some (a - g i)) ->
  forall acc, for_each l body acc = Some (acc - Rsum l g).
Proof.
  intros H acc.
  rewrite (for_each_add l body (fun i => - g i)).
  - f_equal. induction l as [|i l IH]; rewrite ?Rsum_cons, ?Rsum_nil; [lra|].
    assert (E : acc + Rsum l (fun i0 => - g i0) = acc - Rsum l g).
    { apply IH. intros j a Hj. apply H. now right. }
    lra.
  - intros i a Hi. rewrite H by exact Hi. f_equal.
Qed.

End Sums.

(** ** Arithmetic of the summand *)

Section Arithmetic.

Local Open Scope R_scope.

Lemma cnorm2_nonneg z : 0 <= cnorm2 z.
Proof. unfold cnorm2. nra. Qed.

Lemma pow_2_cabs z : pow_2 (cabs z) = cnorm2 z.
Proof.
  unfold pow_2, cabs. apply sqrt_sqrt. apply cnorm2_nonneg.
Qed.

(** [creal((x[l1]+I*x[l2])*d)] is [x_l1 Re d - x_l2 Im d]. *)
Lemma creal_node l1 l2 d :
  creal (cmul (cadd (of_real (x_at l1)) (cmul I (of_real (x_at l2)))) d)
  = x_at l1 * Re d - x_at l2 * Im d.
Proof. unfold creal, cmul, cadd, of_real, I. cbn [Re Im]. ring. Qed.

Lemma lik_spec_term s l1 l2 a b :
  lik s l1 l2 a b = spec_term s l1 l2 (csub a b).
Proof.
  unfold lik, spec_term. now rewrite pow_2_cabs, creal_node.
Qed.

Lemma spec_term_pos s l1 l2 d : 0 < spec_term s l1 l2 d.
Proof. unfold spec_term. apply exp_pos. Qed.

(** The term of a symbol against itself is [exp 0 = 1]. *)
Lemma spec_term_self s l1 l2 a : spec_term s l1 l2 (csub a a) = 1.
Proof.
  unfold spec_term, cnorm2, csub. cbn [Re Im].
  rewrite <- exp_0. f_equal. unfold Rdiv. ring.
Qed.

Lemma log2_nonneg t : 1 <= t -> 0 <= log2 t.
Proof.
  intros Ht. unfold log2.
  assert (H2 : 0 < ln 2).
  { rewrite <- ln_1. apply ln_increasing; lra. }
  assert (Hl : 0 <= ln t).
  { destruct Ht as [Ht| <-].
    - rewrite <- ln_1. left. apply ln_increasing; lra.
    - rewrite ln_1. lra. }
  apply Rmult_le_pos; [exact Hl|].
  left. now apply Rinv_0_lt_compat.
Qed.

Lemma w_at_nonneg l : 0 <= w_at l.
Proof.
  unfold w_at.
  assert (H : Forall (fun v => 0 <= v) w).
  { unfold w. repeat constructor; lra. }
  destruct (nth_in_or_default (Z.to_nat l) w 0) as [Hin| ->]; [|lra].
  rewrite Forall_forall in H. now apply H.
Qed.

End Arithmetic.

(** ** symbol_energy *)

Section SymbolEnergy.

Local Open Scope R_scope.

Lemma C_at_of_nat C (n : nat) : C_at C (Z.of_nat n) = nth n C (mkc 0 0).
Proof. unfold C_at. now rewrite Nat2Z.id. Qed.

Lemma Rsum_seq_nth {A : Type} (l : list A) (d : A) (f : A -> R) :
  Rsum (seq 0 (length l)) (fun n => f (nth n l d)) = Rsum l f.
Proof.
  induction l as [|a l IH]; [reflexivity|].
  cbn [length seq]. rewrite !Rsum_cons. cbn [nth].
  rewrite <- seq_shift, Rsum_map. cbn [nth]. now rewrite IH.
Qed.

Lemma Rsum_range_C_at C (f : complex -> R) :
  Rsum (range (Z.of_nat (length C))) (fun i => f (C_at C i)) = Rsum C f.
Proof.
  rewrite range_of_nat, Rsum_map.
  rewrite <- (Rsum_seq_nth C (mkc 0 0) f).
  apply Rsum_ext. intros n _. now rewrite C_at_of_nat.
Qed.

Lemma symbol_energy_value C M :
  M = Z.of_nat (length C) -> symbol_energy C M = Some (Es_spec C).
Proof.
  intros ->. unfold symbol_energy, for_loop.
  rewrite (for_each_add _ _ (fun i => cnorm2 (C_at C i))).
  - cbn [bind]. f_equal. rewrite Rsum_range_C_at.
    unfold Es_spec. rewrite INR_IZR_INZ. unfold Rdiv. ring.
  - intros i a Hi. apply in_range in Hi.
    rewrite (read_some C i (mkc 0 0)) by exact Hi. cbn [bind].
    now rewrite pow_2_cabs.
Qed.

Lemma Es_spec_nonneg C : 0 <= Es_spec C.
Proof.
  unfold Es_spec.
  assert (Hs : 0 <= Rsum C cnorm2).
  { apply Rsum_nonneg. intros z _. apply cnorm2_nonneg. }
  destruct C as [|c C].
  - cbn. lra.
  - apply Rmult_le_pos; [|exact Hs].
    unfold Rdiv. rewrite Rmult_1_l. left. apply Rinv_0_lt_compat.
    apply lt_0_INR. cbn. lia.
Qed.

(** C9: for every constellation [C] with [M >= 1] points, [symbol_energy]
    returns [Es = (1/M) * sum_i |C_i|^2], a non-negative real; it is a total
    function of its arguments (a value is returned, nothing else changes). *)
Theorem symbol_energy_correct :
  forall (C : list complex) (M : Z),
    (1 <= M)%Z -> M = Z.of_nat (length C) ->
    symbol_energy C M = Some (Es_spec C) /\ 0 <= Es_spec C.
Proof.
  intros C M _ HM. split.
  - now apply symbol_energy_value.
  - apply Es_spec_nonneg.
Qed.

Lemma symbol_energy_correct_witness :
  symbol_energy [mkc 1 1; mkc 1 (-1)] 2
    = Some (Es_spec [mkc 1 1; mkc 1 (-1)]) /\
  0 <= Es_spec [mkc 1 1; mkc 1 (-1)].
Proof.
  apply (symbol_energy_correct [mkc 1 1; mkc 1 (-1)] 2); [lia|reflexivity].
Defined.

End SymbolEnergy.

(** ** qam_eval_mi *)

Section MutualInformation.

Local Open Scope R_scope.

Lemma mi_tmp_value C M s i l1 l2 :
  M = Z.of_nat (length C) -> (0 <= i < M)%Z ->
  mi_tmp C M s i l1 l2 = Some (T_spec C s i l1 l2).
Proof.
  intros -> Hi. unfold mi_tmp, T_spec, for_loop.
  rewrite (for_each_add _ _
    (fun j => spec_term s l1 l2 (csub (C_at C j) (C_at C i)))).
  - f_equal. lra.
  - intros j a Hj. apply in_range in Hj.
    rewrite (read_some C j (mkc 0 0)) by exact Hj.
    rewrite (read_some C i (mkc 0 0)) by exact Hi. cbn [bind].
    now rewrite lik_spec_term.
Qed.

Lemma T_spec_ge_1 C s i l1 l2 :
  (0 <= i < Z.of_nat (length C))%Z -> 1 <= T_spec C s i l1 l2.
Proof.
  intros Hi. unfold T_spec.
  rewrite <- (spec_term_self s l1 l2 (C_at C i)).
  apply (Rsum_ge_term _
    (fun j => spec_term s l1 l2 (csub (C_at C j) (C_at C i))) i).
  - intros j _. left. apply spec_term_pos.
  - now apply in_range.
Qed.

Lemma qam_eval_mi_value C M s :
  M = Z.of_nat (length C) -> qam_eval_mi C M s = Some (MI_spec C s).
Proof.
  intros HM. unfold qam_eval_mi, for_loop.
  rewrite (for_each_sub _ _ (fun i =>
             Rsum (range N_GH) (fun l1 =>
               Rsum (range N_GH) (fun l2 =>
                 w_at l1 * w_at l2 * log2 (T_spec C s i l1 l2))))).
  - cbn [bind]. unfold MI_spec, M_PI. now rewrite HM.
  - intros i a Hi. apply in_range in Hi.
    apply for_each_sub. intros l1 a1 _.
    apply for_each_sub. intros l2 a2 _.
    rewrite (mi_tmp_value C M s i l1 l2 HM Hi). reflexivity.
Qed.

(** C2: for every constellation [C] with [M >= 1] points and every noise
    level [sigma > 0], [qam_eval_mi] returns the value obtained by computing,
    for every symbol [i] and node pair [(l1,l2)], the sum [T(i,l1,l2)] over
    all [M] symbols [j] of
    [exp(-(|C_j-C_i|^2 - 2 sigma Re[(x_l1 + i x_l2)(C_j-C_i)])/sigma^2)],
    whose [j = i] term equals 1, subtracting [w_l1 w_l2 log2 T] for each
    triple, dividing the accumulated value by [M pi] and adding [log2 M]. *)
Theorem qam_eval_mi_correct :
  forall (C : list complex) (M : Z) (sigma : R),
    (1 <= M)%Z -> M = Z.of_nat (length C) -> 0 < sigma ->
    qam_eval_mi C M sigma = Some (MI_spec C sigma) /\
    (forall i l1 l2, (0 <= i < M)%Z ->
       spec_term sigma l1 l2 (csub (C_at C i) (C_at C i)) = 1).
Proof.
  intros C M sigma _ HM _. split.
  - now apply qam_eval_mi_value.
  - intros i l1 l2 _. apply spec_term_self.
Qed.

Lemma qam_eval_mi_correct_witness :
  qam_eval_mi [mkc 1 0; mkc (-1) 0] 2 1
    = Some (MI_spec [mkc 1 0; mkc (-1) 0] 1) /\
  (forall i l1 l2, (0 <= i < 2)%Z ->
     spec_term 1 l1 l2 (csub (C_at [mkc 1 0; mkc (-1) 0] i)
                             (C_at [mkc 1 0; mkc (-1) 0] i)) = 1).
Proof.
  apply (qam_eval_mi_correct [mkc 1 0; mkc (-1) 0] 2 1);
    [lia|reflexivity|lra].
Defined.

(** C8: for every constellation, symbol index [i], node pair [(l1,l2)] and
    [sigma > 0], the inner sum [T(i,l1,l2)] computed by [qam_eval_mi] is at
    least 1: every term is positive and the [j = i] term is [exp 0 = 1]; so
    the argument of [log2] is strictly positive. *)
Theorem mi_tmp_ge_1 :
  forall (C : list complex) (M : Z) (sigma : R) (i l1 l2 : Z),
    M = Z.of_nat (length C) -> (0 <= i < M)%Z -> 0 < sigma ->
    exists T, mi_tmp C M sigma i l1 l2 = Some T /\ 1 <= T /\ 0 < T /\
              (forall j, 0 < spec_term sigma l1 l2
                               (csub (C_at C j) (C_at C i))) /\
              spec_term sigma l1 l2 (csub (C_at C i) (C_at C i)) = 1.
Proof.
  intros C M sigma i l1 l2 HM Hi _.
  exists (T_spec C sigma i l1 l2).
  assert (H1 : 1 <= T_spec C sigma i l1 l2).
  { apply T_spec_ge_1. now rewrite <- HM. }
  repeat split.
  - now apply mi_tmp_value.
  - exact H1.
  - lra.
  - intros j. apply spec_term_pos.
  - apply spec_term_self.
Qed.

Lemma mi_tmp_ge_1_witness :
  exists T, mi_tmp [mkc 1 0; mkc (-1) 0] 2 1 0 0 0 = Some T /\ 1 <= T /\
            0 < T /\
            (forall j, 0 < spec_term 1 0 0
               (csub (C_at [mkc 1 0; mkc (-1) 0] j)
                     (C_at [mkc 1 0; mkc (-1) 0] 0))) /\
            spec_term 1 0 0 (csub (C_at [mkc 1 0; mkc (-1) 0] 0)
                                  (C_at [mkc 1 0; mkc (-1) 0] 0)) = 1.
Proof.
  apply (mi_tmp_ge_1 [mkc 1 0; mkc (-1) 0] 2 1 0 0 0);
    [reflexivity|lia|lra].
Defined.

(** In exact arithmetic the value of [qam_eval_mi] never exceeds [log2 M]:
    the accumulated sum is not positive. *)
Lemma MI_spec_le_log2 C s :
  (1 <= length C)%nat -> MI_spec C s <= log2 (IZR (Z.of_nat (length C))).
Proof.
  intros HM. unfold MI_spec.
  set (acc := Rsum _ _).
  assert (HS : 0 <= acc).
  { apply Rsum_nonneg. intros i Hi. apply in_range in Hi.
    apply Rsum_nonneg. intros l1 _. apply Rsum_nonneg. intros l2 _.
    apply Rmult_le_pos.
    - apply Rmult_le_pos; apply w_at_nonneg.
    - apply log2_nonneg. now apply T_spec_ge_1. }
  assert (Hpos : 0 < IZR (Z.of_nat (length C)) * PI).
  { apply Rmult_lt_0_compat; [|apply PI_RGT_0].
    apply IZR_lt. lia. }
  assert (Hq : (0 - acc) / (IZR (Z.of_nat (length C)) * PI) <= 0).
  { unfold Rdiv. rewrite <- (Rmult_0_l (/ (IZR (Z.of_nat (length C)) * PI))).
    apply Rmult_le_compat_r; [|lra].
    left. now apply Rinv_0_lt_compat. }
  lra.
Qed.

End MutualInformation.

(** ** The symbol indices of qam_eval_gmi *)

Lemma add_pow2_bits v k n :
  0 <= k -> Z.testbit v k = false -> 0 <= n ->
  Z.testbit (v + 2 ^ k) n = if n =? k then true else Z.testbit v n.
Proof.
  intros Hk Hbit Hn.
  assert (Hland : Z.land v (2 ^ k) = 0).
  { apply Z.bits_inj'. intros j Hj.
    rewrite Z.land_spec, Z.pow2_bits_eqb, Z.bits_0 by lia.
    destruct (Z.eqb_spec k j) as [<-|_].
    - now rewrite Hbit.
    - apply andb_false_r. }
  rewrite (Z.add_nocarry_lxor _ _ Hland), Z.lxor_spec, Z.pow2_bits_eqb by lia.
  rewrite (Z.eqb_sym k n).
  destruct (Z.eqb_spec n k) as [->|_].
  - now rewrite Hbit.
  - apply xorb_false_r.
Qed.

Lemma bi_spec_bit i k m b n :
  0 <= k <= m -> 0 <= b <= 1 -> 0 <= n ->
  Z.testbit (bi_spec i k m b) n =
    if n =? k then (b =? 1) else Z.testbit (BitSubsetIndexer_formula i k m) n.
Proof.
  intros Hk Hb Hn. unfold bi_spec.
  assert (Hcases : b = 0 \/ b = 1) by lia.
  destruct Hcases as [-> | ->].
  - rewrite Z.shiftl_0_l, Z.add_0_r.
    destruct (Z.eqb_spec n k) as [->|_]; [|reflexivity].
    now rewrite formula_bit_clear.
  - rewrite Z.shiftl_1_l.
    rewrite add_pow2_bits by (try apply formula_bit_clear; lia).
    reflexivity.
Qed.

Lemma shiftl_bit_range b k :
  0 <= k -> 0 <= b <= 1 -> 0 <= Z.shiftl b k <= 2 ^ k.
Proof.
  intros Hk Hb. rewrite Z.shiftl_mul_pow2 by lia.
  assert (0 < 2 ^ k) by (apply Z.pow_pos_nonneg; lia). nia.
Qed.

Lemma bi_spec_range i k m b :
  0 <= k < m -> 0 <= i < 2 ^ (m - 1) -> 0 <= b <= 1 ->
  0 <= bi_spec i k m b < 2 ^ m.
Proof.
  intros Hk Hi Hb.
  assert (Hnn : 0 <= bi_spec i k m b).
  { unfold bi_spec. pose proof (formula_nonneg i k m).
    pose proof (shiftl_bit_range b k). lia. }
  split; [exact Hnn|].
  apply lt_pow2_of_bits; [exact Hnn|lia|].
  intros n Hn. rewrite bi_spec_bit by lia.
  replace (n =? k) with false by (symmetry; apply Z.eqb_neq; lia).
  apply (testbit_above_pow2 _ m); [|lia].
  apply formula_range; lia.
Qed.

Lemma bi_spec_bit_is i k m b :
  0 <= k <= m -> 0 <= b <= 1 -> bit_is k b (bi_spec i k m b) = true.
Proof.
  intros Hk Hb. unfold bit_is.
  rewrite bi_spec_bit by lia. rewrite Z.eqb_refl. apply eqb_reflx.
Qed.

Lemma bi_spec_inj i j k m b :
  0 <= k < m -> 0 <= i < 2 ^ (m - 1) -> 0 <= j < 2 ^ (m - 1) ->
  bi_spec i k m b = bi_spec j k m b -> i = j.
Proof.
  intros Hk Hi Hj E. unfold bi_spec in E.
  apply (formula_inj i j k m Hk Hi Hj). lia.
Qed.

Lemma clearbit_add_pow2 v k :
  0 <= k -> Z.testbit v k = true -> Z.clearbit v k + 2 ^ k = v.
Proof.
  intros Hk Hbit. apply Z.bits_inj'. intros n Hn.
  rewrite add_pow2_bits; try lia.
  - rewrite Z.clearbit_eqb, (Z.eqb_sym k n).
    destruct (Z.eqb_spec n k) as [->|_].
    + now rewrite Hbit.
    + apply andb_true_r.
  - rewrite Z.clearbit_eqb, Z.eqb_refl. apply andb_false_r.
Qed.

Lemma bi_spec_surj v k m b :
  0 <= k < m -> 0 <= b <= 1 -> 0 <= v < 2 ^ m -> bit_is k b v = true ->
  exists j, 0 <= j < 2 ^ (m - 1) /\ bi_spec j k m b = v.
Proof.
  intros Hk Hb Hv Hbit. unfold bit_is in Hbit. apply eqb_prop in Hbit.
  assert (Hcases : b = 0 \/ b = 1) by lia.
  destruct Hcases as [-> | ->]; cbn in Hbit.
  - exists (remove_bit v k). split.
    + now apply (remove_bit_range v k m).
    + unfold bi_spec. rewrite Z.shiftl_0_l, Z.add_0_r.
      now apply formula_remove_bit.
  - pose proof (clearbit_add_pow2 v k (proj1 Hk) Hbit) as E.
    assert (Hpow : 0 < 2 ^ k) by (apply Z.pow_pos_nonneg; lia).
    assert (Hc : 0 <= Z.clearbit v k < 2 ^ m).
    { split; [|lia]. unfold Z.clearbit. apply Z.ldiff_nonneg. left. lia. }
    assert (Hcb : Z.testbit (Z.clearbit v k) k = false).
    { rewrite Z.clearbit_eqb, Z.eqb_refl. apply andb_false_r. }
    exists (remove_bit (Z.clearbit v k) k). split.
    + now apply (remove_bit_range _ k m).
    + unfold bi_spec. rewrite Z.shiftl_1_l.
      rewrite formula_remove_bit by assumption. exact E.
Qed.

(** The symbols enumerated by the denominator loop are, up to order, the
    symbols whose bit [k] equals [b], each once. *)
Lemma den_indices_Permutation k m b :
  0 <= k < m -> 0 <= b <= 1 ->
  Permutation (map (fun j => bi_spec j k m b) (range (2 ^ (m - 1))))
              (filter (bit_is k b) (range (2 ^ m))).
Proof.
  intros Hk Hb. apply NoDup_Permutation.
  - apply Finite.Injective_map_NoDup_in; [|apply NoDup_range].
    intros i j Hi Hj. apply in_range in Hi, Hj.
    now apply bi_spec_inj.
  - apply NoDup_filter, NoDup_range.
  - intros v. rewrite in_map_iff, filter_In, in_range. split.
    + intros [j [<- Hj]]. apply in_range in Hj. split.
      * now apply bi_spec_range.
      * apply bi_spec_bit_is; lia.
    + intros [Hv Hbit].
      destruct (bi_spec_surj v k m b Hk Hb Hv Hbit) as [j [Hj E]].
      exists j. split; [exact E|]. now apply in_range.
Qed.

Lemma gmi_index_value i k m b :
  0 <= k < m -> m <= 30 -> 0 <= i < 2 ^ (m - 1) -> 0 <= b <= 1 ->
  gmi_index i k m b = Some (bi_spec i k m b).
Proof.
  intros Hk Hm Hi Hb. unfold gmi_index.
  pose proof (pow2_pred_le_30 m ltac:(lia)) as Hp.
  pose proof (pow2_le_30 k ltac:(lia)) as Hpk.
  pose proof (pow2_le_30 m ltac:(lia)) as Hpm.
  pose proof (bi_spec_range i k m b Hk Hi Hb) as Hr.
  rewrite !to_uint_small by lia.
  rewrite insert_zero_formula by lia. cbn [bind].
  rewrite shl_int_spec; try lia.
  2:{ unfold INT_MAX. nia. }
  cbn [bind]. rewrite <- Z.shiftl_mul_pow2 by lia.
  pose proof (shiftl_bit_range b k ltac:(lia) Hb) as Hs.
  rewrite (to_uint_small (Z.shiftl b k)) by lia.
  fold (bi_spec i k m b).
  rewrite to_uint_small, to_int_small by lia.
  reflexivity.
Qed.

(** ** qam_eval_gmi *)

Section GeneralizedMutualInformation.

Local Open Scope R_scope.

Lemma quot_pow2 m : (1 <= m)%Z -> Z.quot (2 ^ m) 2 = (2 ^ (m - 1))%Z.
Proof.
  intros Hm.
  assert (Hp : (0 < 2 ^ (m - 1))%Z) by (apply Z.pow_pos_nonneg; lia).
  assert (E : (2 ^ m = 2 ^ (m - 1) * 2)%Z).
  { replace m with (m - 1 + 1)%Z at 1 by lia.
    rewrite Z.pow_add_r by lia. now rewrite Z.pow_1_r. }
  rewrite E, Z.quot_div_nonneg by lia. apply Z.div_mul. lia.
Qed.

Lemma int_log2_pow2 m : (0 <= m)%Z -> int_log2 (2 ^ m) = Some m.
Proof.
  intros Hm. unfold int_log2.
  assert (Hp : (0 < 2 ^ m)%Z) by (apply Z.pow_pos_nonneg; lia).
  replace (0 <? 2 ^ m)%Z with true by (symmetry; apply Z.ltb_lt; lia).
  now rewrite Z.log2_pow2.
Qed.

Lemma gmi_num_value C M s bi l1 l2 :
  M = Z.of_nat (length C) -> (0 <= bi < M)%Z ->
  gmi_num C M s bi l1 l2 = Some (num_spec C s bi l1 l2).
Proof.
  intros -> Hbi. unfold gmi_num, num_spec, for_loop.
  rewrite (for_each_add _ _
    (fun j => spec_term s l1 l2 (csub (C_at C bi) (C_at C j)))).
  - f_equal. lra.
  - intros j a Hj. apply in_range in Hj.
    rewrite (read_some C bi (mkc 0 0)) by exact Hbi.
    rewrite (read_some C j (mkc 0 0)) by exact Hj. cbn [bind].
    now rewrite lik_spec_term.
Qed.

Lemma gmi_den_value C M s m k b bi l1 l2 :
  M = (2 ^ m)%Z -> M = Z.of_nat (length C) -> (m <= 30)%Z ->
  (0 <= k < m)%Z -> (0 <= b <= 1)%Z -> (0 <= bi < M)%Z ->
  gmi_den C M s m k b bi l1 l2 = Some (den_spec C s k b bi l1 l2).
Proof.
  intros HM HC Hm Hk Hb Hbi. unfold gmi_den, den_spec, for_loop.
  rewrite (for_each_add _ _
    (fun j => spec_term s l1 l2
                (csub (C_at C bi) (C_at C (bi_spec j k m b))))).
  - f_equal. rewrite Rplus_0_l.
    rewrite <- (Rsum_map (fun j => bi_spec j k m b) _
                  (fun v => spec_term s l1 l2 (csub (C_at C bi) (C_at C v)))).
    rewrite HM, quot_pow2 by lia. rewrite <- HC, HM.
    apply Rsum_Permutation. now apply den_indices_Permutation.
  - intros j a Hj. apply in_range in Hj.
    rewrite HM, quot_pow2 in Hj by lia.
    rewrite gmi_index_value by lia. cbn [bind].
    pose proof (bi_spec_range j k m b Hk Hj Hb) as Hr.
    rewrite (read_some C bi (mkc 0 0)) by now rewrite <- HC.
    rewrite (read_some C (bi_spec j k m b) (mkc 0 0))
      by now rewrite <- HC, HM.
    cbn [bind]. now rewrite lik_spec_term.
Qed.

Lemma qam_eval_gmi_value C M m s :
  (0 <= m <= 30)%Z -> M = (2 ^ m)%Z -> M = Z.of_nat (length C) ->
  qam_eval_gmi C M s = Some (GMI_spec C m s).
Proof.
  intros Hm HM HC. unfold qam_eval_gmi.
  rewrite HM at 1. rewrite int_log2_pow2 by lia. cbn [bind].
  assert (Hq : Z.quot M 2 = (Z.of_nat (length C) / 2)%Z).
  { rewrite <- HC. apply Z.quot_div_nonneg; [|lia].
    rewrite HM. apply Z.pow_nonneg. lia. }
  unfold for_loop.
  rewrite (for_each_sub _ _ (fun k =>
    Rsum (range 2) (fun b =>
      Rsum (range (Z.of_nat (length C) / 2)) (fun i =>
        Rsum (range N_GH) (fun l1 =>
          Rsum (range N_GH) (fun l2 =>
            w_at l1 * w_at l2 *
            log2 (num_spec C s (bi_spec i k m b) l1 l2 /
                  den_spec C s k b (bi_spec i k m b) l1 l2))))))).
  - cbn [bind]. unfold GMI_spec, M_PI. now rewrite HC.
  - intros k a Hk. apply in_range in Hk.
    apply for_each_sub. intros b a1 Hb. apply in_range in Hb.
    rewrite Hq. apply for_each_sub. intros i a2 Hi. apply in_range in Hi.
    rewrite <- Hq, HM, quot_pow2 in Hi by lia.
    rewrite gmi_index_value by lia. cbn [bind].
    pose proof (bi_spec_range i k m b ltac:(lia) Hi ltac:(lia)) as Hr.
    apply for_each_sub. intros l1 a3 _.
    apply for_each_sub. intros l2 a4 _.
    rewrite (gmi_num_value C M s) by (try exact HC; lia).
    rewrite (gmi_den_value C M s m k b) by (try assumption; lia).
    reflexivity.
Qed.

(** C1: for every constellation [C] with [M = 2^m] points, [m] a positive
    integer, and every [sigma > 0], [qam_eval_gmi] returns the value obtained
    by subtracting, for each bit position [k] in [0,m), bit value [b], compact
    index [i] in [0,M/2) and node pair [(l1,l2)], the quantity
    [w_l1 w_l2 log2(numerator/denominator)], where
    [bi = BitSubsetIndexer(i,k,m) + (b<<k)], the numerator is the sum over all
    [M] symbols [j] of
    [exp(-(|C_bi-C_j|^2 - 2 sigma Re[(x_l1 + i x_l2)(C_bi-C_j)])/sigma^2)]
    and the denominator is the same sum restricted to the symbols whose bit
    [k] equals [b]; the result is the accumulated value divided by [M pi],
    plus [m].  ([M] is an [int], hence [M <= INT_MAX].) *)
Theorem qam_eval_gmi_correct :
  forall (C : list complex) (M m : Z) (sigma : R),
    (1 <= m)%Z -> M = (2 ^ m)%Z -> (M <= INT_MAX)%Z ->
    M = Z.of_nat (length C) -> 0 < sigma ->
    qam_eval_gmi C M sigma = Some (GMI_spec C m sigma).
Proof.
  intros C M m sigma Hm HM Hmax HC _.
  apply qam_eval_gmi_value; try assumption.
  split; [lia|].
  destruct (Z.le_gt_cases m 30) as [Hle|Hgt]; [exact Hle|exfalso].
  assert (H31 : (2 ^ 31 <= 2 ^ m)%Z) by (apply Z.pow_le_mono_r; lia).
  unfold INT_MAX in Hmax. lia.
Qed.

Lemma qam_eval_gmi_correct_witness :
  qam_eval_gmi [mkc 1 0; mkc (-1) 0] 2 1
    = Some (GMI_spec [mkc 1 0; mkc (-1) 0] 1 1).
Proof.
  apply (qam_eval_gmi_correct [mkc 1 0; mkc (-1) 0] 2 1 1);
    [lia|reflexivity|unfold INT_MAX; lia|reflexivity|lra].
Defined.

Lemma den_spec_bounds C m s k b i l1 l2 :
  (0 <= k < m)%Z -> (0 <= b <= 1)%Z -> (0 <= i < 2 ^ (m - 1))%Z ->
  Z.of_nat (length C) = (2 ^ m)%Z ->
  1 <= den_spec C s k b (bi_spec i k m b) l1 l2
    <= num_spec C s (bi_spec i k m b) l1 l2.
Proof.
  intros Hk Hb Hi HC. unfold den_spec, num_spec. split.
  - rewrite <- (spec_term_self s l1 l2 (C_at C (bi_spec i k m b))).
    apply (Rsum_ge_term _
      (fun j => spec_term s l1 l2
                  (csub (C_at C (bi_spec i k m b)) (C_at C j)))).
    + intros j _. left. apply spec_term_pos.
    + apply filter_In. split.
      * apply in_range. rewrite HC. now apply bi_spec_range.
      * apply bi_spec_bit_is; lia.
  - apply Rsum_filter_le. intros j _. left. apply spec_term_pos.
Qed.

Lemma quotient_ge_1 num den : 1 <= den <= num -> 1 <= num / den.
Proof.
  intros [Hd Hn]. unfold Rdiv.
  assert (Hinv : 0 < / den) by (apply Rinv_0_lt_compat; lra).
  replace 1 with (den * / den) by (apply Rinv_r; lra).
  apply Rmult_le_compat_r; lra.
Qed.

(** C10, as amended: in [qam_eval_gmi] on a constellation of [M = 2^m]
    points, for every bit position [k], bit value [b], compact index [i] and
    node pair, every index [bj = insert_zero(j,k,m) + (b<<k)] of the
    denominator loop lies in the range [0,M) of the numerator loop, the
    [bj = bi] term is [exp 0 = 1], hence
    [numerator >= denominator >= 1 > 0], the quotient is well defined and at
    least 1, and each accumulated term [- w_l1 w_l2 log2(numerator/denominator)]
    is not positive. *)
Theorem gmi_log_argument_positive :
  forall (C : list complex) (M m : Z) (sigma : R),
    (0 <= m)%Z -> M = (2 ^ m)%Z -> (M <= INT_MAX)%Z ->
    M = Z.of_nat (length C) -> 0 < sigma ->
    gmi_log_argument_safe C M sigma.
Proof.
  intros C M m sigma Hm0 HM Hmax HC _ m' k b i l1 l2 Hlog Hk Hb Hi.
  rewrite HM, int_log2_pow2 in Hlog by exact Hm0.
  injection Hlog as <-.
  assert (Hm : (m <= 30)%Z).
  { destruct (Z.le_gt_cases m 30) as [Hle|Hgt]; [exact Hle|exfalso].
    assert (H31 : (2 ^ 31 <= 2 ^ m)%Z) by (apply Z.pow_le_mono_r; lia).
    unfold INT_MAX in Hmax. lia. }
  rewrite HM, quot_pow2 in Hi by lia.
  split.
  - intros j Hj. rewrite HM, quot_pow2 in Hj by lia.
    exists (bi_spec j k m b). split.
    + apply gmi_index_value; lia.
    + rewrite HM. apply bi_spec_range; lia.
  - pose proof (bi_spec_range i k m b Hk Hi Hb) as Hr.
    pose proof (den_spec_bounds C m sigma k b i l1 l2 Hk Hb Hi
                  ltac:(now rewrite <- HC)) as Hden.
    exists (bi_spec i k m b), (num_spec C sigma (bi_spec i k m b) l1 l2),
      (den_spec C sigma k b (bi_spec i k m b) l1 l2).
    repeat split.
    + apply gmi_index_value; lia.
    + rewrite lik_spec_term. apply spec_term_self.
    + apply gmi_num_value; [exact HC|]. now rewrite HM.
    + apply gmi_den_value; try assumption. now rewrite HM.
    + apply Hden.
    + apply Hden.
    + apply quotient_ge_1, Hden.
    + pose proof (w_at_nonneg l1) as H1. pose proof (w_at_nonneg l2) as H2.
      pose proof (log2_nonneg _ (quotient_ge_1 _ _ Hden)) as H3.
      assert (0 <= w_at l1 * w_at l2) by now apply Rmult_le_pos.
      assert (0 <= w_at l1 * w_at l2 *
                   log2 (num_spec C sigma (bi_spec i k m b) l1 l2 /
                         den_spec C sigma k b (bi_spec i k m b) l1 l2))
        by now apply Rmult_le_pos.
      lra.
Qed.

Lemma gmi_log_argument_positive_witness :
  gmi_log_argument_safe [mkc 1 0; mkc (-1) 0] 2 1.
Proof.
  apply (gmi_log_argument_positive [mkc 1 0; mkc (-1) 0] 2 1 1);
    [lia|reflexivity|unfold INT_MAX; lia|reflexivity|lra].
Defined.

(** C10, as stated for every [M], fails: for [M = 6] the width is
    [m = (int)log2(6) = 2] and [M/2 = 3], and for [k = 1], [b = 1], [j = 2]
    the denominator loop forms [bj = insert_zero(2,1,2) + (1<<1) = 4 + 2 = 6],
    which is not in the range [0,6) of the numerator loop. *)
Lemma gmi_log_argument_unsafe_at_6 :
  ~ gmi_log_argument_safe
      [mkc 1 0; mkc 2 0; mkc 3 0; mkc 4 0; mkc 5 0; mkc 6 0] 6 1.
Proof.
  intros H.
  destruct (H 2%Z 1%Z 1%Z 0%Z 0%Z 0%Z) as [Hidx _].
  - reflexivity.
  - lia.
  - lia.
  - cbn. lia.
  - destruct (Hidx 2%Z) as [bj [E Hbj]].
    + cbn. lia.
    + vm_compute in E. injection E as <-. lia.
Qed.

End GeneralizedMutualInformation.

(** ** Definedness does not depend on the noise level *)

Lemma bind_same_def {A A' B B' : Type} (o : option A) (o' : option A')
    (f : A -> option B) (f' : A' -> option B') :
  (o = None <-> o' = None) ->
  (forall a a', f a = None <-> f' a' = None) ->
  bind o f = None <-> bind o' f' = None.
Proof.
  intros Ho Hf. destruct o as [a|], o' as [a'|]; cbn.
  - apply Hf.
  - destruct Ho as [_ Ho]. discriminate (Ho eq_refl).
  - destruct Ho as [Ho _]. discriminate (Ho eq_refl).
  - tauto.
Qed.

Lemma some_same_def {A B : Type} (a : A) (b : B) :
  Some a = None <-> Some b = None.
Proof. split; discriminate. Qed.

Lemma bind_same_def_eq {A B B' : Type} (o : option A)
    (f : A -> option B) (f' : A -> option B') :
  (forall a, f a = None <-> f' a = None) ->
  bind o f = None <-> bind o f' = None.
Proof.
  intros Hf. destruct o as [a|]; cbn; [apply Hf|tauto].
Qed.

Ltac same_def :=
  repeat
    lazymatch goal with
    | |- Some _ = None <-> Some _ = None => apply some_same_def
    | |- ?o = None <-> ?o = None => reflexivity
    | |- bind ?o _ = None <-> bind ?o _ = None =>
        apply bind_same_def_eq; intros ?
    | |- bind _ _ = None <-> bind _ _ = None =>
        apply bind_same_def; [|intros ? ?]
    | |- for_each _ _ _ = None <-> for_each _ _ _ = None =>
        apply for_each_same_def; intros ? ? ? _
    end.

Lemma mi_tmp_same_def C M s s' i l1 l2 :
  mi_tmp C M s i l1 l2 = None <-> mi_tmp C M s' i l1 l2 = None.
Proof. unfold mi_tmp, for_loop. same_def. Qed.

Lemma qam_eval_mi_same_def C M s s' :
  qam_eval_mi C M s = None <-> qam_eval_mi C M s' = None.
Proof.
  unfold qam_eval_mi, for_loop. same_def. apply mi_tmp_same_def.
Qed.

Lemma gmi_num_same_def C M s s' bi l1 l2 :
  gmi_num C M s bi l1 l2 = None <-> gmi_num C M s' bi l1 l2 = None.
Proof. unfold gmi_num, for_loop. same_def. Qed.

Lemma gmi_den_same_def C M s s' m k b bi l1 l2 :
  gmi_den C M s m k b bi l1 l2 = None <->
  gmi_den C M s' m k b bi l1 l2 = None.
Proof. unfold gmi_den, for_loop. same_def. Qed.

Lemma qam_eval_gmi_same_def C M s s' :
  qam_eval_gmi C M s = None <-> qam_eval_gmi C M s' = None.
Proof.
  unfold qam_eval_gmi, for_loop.
  destruct (int_log2 M) as [m|]; cbn [bind]; [|reflexivity].
  apply bind_same_def; [|intros; apply some_same_def].
  apply for_each_same_def; intros k a a' _.
  apply for_each_same_def; intros b a1 a1' _.
  apply for_each_same_def; intros i a2 a2' _.
  destruct (gmi_index i k m b) as [bi|]; cbn [bind]; [|reflexivity].
  apply for_each_same_def; intros l1 a3 a3' _.
  apply for_each_same_def; intros l2 a4 a4' _.
  apply bind_same_def; [apply gmi_num_same_def|intros n n'].
  apply bind_same_def; [apply gmi_den_same_def|intros d d'].
  apply some_same_def.
Qed.

Lemma point_same_def C M Es x y :
  point C M Es x = None <-> point C M Es y = None.
Proof.
  unfold point.
  apply bind_same_def; [apply qam_eval_mi_same_def|intros v v'].
  apply bind_same_def; [apply qam_eval_gmi_same_def|intros g g'].
  apply some_same_def.
Qed.

(** ** Arrays and lists of evaluations *)

Lemma set_nth_spec {A : Type} (a : list A) (n : nat) (v : A) :
  (n < length a)%nat ->
  exists a', set_nth a n v = Some a' /\ length a' = length a /\
             forall j, nth_error a' j =
                         if Nat.eqb j n then Some v else nth_error a j.
Proof.
  revert n. induction a as [|h t IH]; intros n Hn; cbn in Hn; [lia|].
  destruct n as [|n]; cbn [set_nth].
  - exists (v :: t). repeat split. intros [|j]; reflexivity.
  - destruct (IH n ltac:(lia)) as [t' [E [Hlen Hnth]]].
    rewrite E. exists (h :: t'). repeat split.
    + cbn. now rewrite Hlen.
    + intros [|j]; [reflexivity|]. cbn. apply Hnth.
Qed.

Lemma write_spec {A : Type} (a : list A) (i : Z) (v : A) :
  0 <= i < Z.of_nat (length a) ->
  exists a', write a i v = Some a' /\ length a' = length a /\
             forall j, nth_error a' j =
                         if Nat.eqb j (Z.to_nat i) then Some v
                         else nth_error a j.
Proof.
  intros Hi. unfold write.
  replace (i <? 0) with false by (symmetry; apply Z.ltb_ge; lia).
  apply set_nth_spec. lia.
Qed.

Lemma mapM_some {A B : Type} (f : A -> option B) (l : list A) (bs : list B) :
  mapM f l = Some bs ->
  length bs = length l /\
  forall n a, nth_error l n = Some a ->
    exists b, f a = Some b /\ nth_error bs n = Some b.
Proof.
  revert bs. induction l as [|a l IH]; intros bs E; cbn in E.
  - injection E as <-. split; [reflexivity|]. intros [|n] a0; discriminate.
  - destruct (f a) as [b|] eqn:Ea; [cbn in E|discriminate].
    destruct (mapM f l) as [bs'|]; [cbn in E|discriminate].
    injection E as <-. destruct (IH bs' eq_refl) as [Hlen Hnth].
    split; [cbn; now rewrite Hlen|].
    intros [|n] a0 Hn; cbn in Hn.
    + injection Hn as <-. exists b. now split.
    + now apply Hnth.
Qed.

Lemma mapM_none {A B : Type} (f : A -> option B) (l : list A) :
  mapM f l = None -> exists a, In a l /\ f a = None.
Proof.
  induction l as [|a l IH]; intros E; cbn in E; [discriminate|].
  destruct (f a) as [b|] eqn:Ea.
  - cbn in E. destruct (mapM f l) as [bs|]; [discriminate|].
    destruct (IH eq_refl) as [a0 [Hin Ha0]].
    exists a0. split; [now right|exact Ha0].
  - exists a. split; [now left|exact Ea].
Qed.

(** ** mexFunction *)

Section Driver.

Local Open Scope R_scope.

Variables (C : list complex) (M : Z) (Es : R) (snr : list R).

Lemma iteration_none i out x :
  read snr i = Some x -> point C M Es x = None ->
  iteration C M Es snr i out = None.
Proof.
  intros Hx Hp. unfold iteration. rewrite Hx. cbn [bind].
  unfold point, sigma_of in Hp. unfold pow_10.
  destruct (qam_eval_mi C M _) as [v|]; cbn [bind] in *; [|reflexivity].
  destruct (write (fst out) i v); cbn [bind]; [|reflexivity].
  destruct (qam_eval_gmi C M _) as [g|]; [discriminate|reflexivity].
Qed.

Lemma iteration_some i out x p :
  read snr i = Some x -> point C M Es x = Some p ->
  length (fst out) = length snr -> length (snd out) = length snr ->
  exists mi' gmi',
    iteration C M Es snr i out = Some (mi', gmi') /\
    length mi' = length snr /\ length gmi' = length snr /\
    (forall j, nth_error mi' j =
                 if Nat.eqb j (Z.to_nat i) then Some (fst p)
                 else nth_error (fst out) j) /\
    (forall j, nth_error gmi' j =
                 if Nat.eqb j (Z.to_nat i) then Some (snd p)
                 else nth_error (snd out) j).
Proof.
  intros Hx Hp Hl1 Hl2.
  assert (Hi : (0 <= i < Z.of_nat (length snr))%Z).
  { unfold read in Hx. destruct (Z.ltb_spec i 0); [discriminate|].
    assert (Hn : nth_error snr (Z.to_nat i) <> None) by now rewrite Hx.
    apply nth_error_Some in Hn. lia. }
  unfold iteration. rewrite Hx. cbn [bind].
  unfold point, sigma_of in Hp. unfold pow_10.
  destruct (qam_eval_mi C M _) as [v|]; [cbn [bind] in *|discriminate].
  destruct (qam_eval_gmi C M _) as [g|]; [cbn [bind] in *|discriminate].
  injection Hp as <-.
  destruct (write_spec (fst out) i v ltac:(now rewrite Hl1))
    as [mi' [E1 [Hlen1 Hnth1]]].
  destruct (write_spec (snd out) i g ltac:(now rewrite Hl2))
    as [gmi' [E2 [Hlen2 Hnth2]]].
  rewrite E1. cbn [bind]. rewrite E2. cbn [bind].
  exists mi', gmi'. repeat split; try assumption; congruence.
Qed.

(** Whatever the order of the iterations, slot [n] holds the evaluation of
    the [n]-th SNR value as soon as [n] has been scheduled. *)
Lemma schedule_some (ps : list (R * R)) :
  mapM (point C M Es) snr = Some ps ->
  forall schedule out,
    (forall i, In i schedule -> (0 <= i < Z.of_nat (length snr))%Z) ->
    length (fst out) = length snr -> length (snd out) = length snr ->
    exists out',
      for_each schedule (iteration C M Es snr) out = Some out' /\
      length (fst out') = length snr /\ length (snd out') = length snr /\
      (forall n, nth_error (fst out') n =
                   if existsb (fun i => Nat.eqb n (Z.to_nat i)) schedule
                   then option_map fst (nth_error ps n)
                   else nth_error (fst out) n) /\
      (forall n, nth_error (snd out') n =
                   if existsb (fun i => Nat.eqb n (Z.to_nat i)) schedule
                   then option_map snd (nth_error ps n)
                   else nth_error (snd out) n).
Proof.
  intros Hps. destruct (mapM_some _ _ _ Hps) as [Hlen Hpt].
  induction schedule as [|i schedule IH]; intros out Hin Hl1 Hl2.
  - exists out. cbn. repeat split; assumption.
  - assert (Hi : (0 <= i < Z.of_nat (length snr))%Z)
      by (apply Hin; now left).
    destruct (nth_error snr (Z.to_nat i)) as [x|] eqn:Hx.
    2:{ apply nth_error_None in Hx. lia. }
    destruct (Hpt _ _ Hx) as [p [Hp Hnp]].
    assert (Hread : read snr i = Some x).
    { unfold read.
      now replace (i <? 0)%Z with false by (symmetry; apply Z.ltb_ge; lia). }
    destruct (iteration_some i out x p Hread Hp Hl1 Hl2)
      as [mi1 [gmi1 [E [Hlen1 [Hlen2 [Hn1 Hn2]]]]]].
    destruct (IH (mi1, gmi1)) as [out' [E' [Hl1' [Hl2' [Hn1' Hn2']]]]];
      try assumption.
    { intros j Hj. apply Hin. now right. }
    exists out'. cbn [for_each]. rewrite E.
    repeat split; try assumption.
    + intros n. rewrite Hn1'. cbn [existsb fst].
      destruct (existsb _ schedule); [now rewrite orb_true_r|].
      rewrite orb_false_r, Hn1.
      destruct (Nat.eqb_spec n (Z.to_nat i)) as [->|_]; [|reflexivity].
      now rewrite Hnp.
    + intros n. rewrite Hn2'. cbn [existsb snd].
      destruct (existsb _ schedule); [now rewrite orb_true_r|].
      rewrite orb_false_r, Hn2.
      destruct (Nat.eqb_spec n (Z.to_nat i)) as [->|_]; [|reflexivity].
      now rewrite Hnp.
Qed.

Lemma schedule_covers schedule n :
  Permutation schedule (range (Z.of_nat (length snr))) ->
  (n < length snr)%nat ->
  existsb (fun i => Nat.eqb n (Z.to_nat i)) schedule = true.
Proof.
  intros Hperm Hn. apply existsb_exists. exists (Z.of_nat n). split.
  - apply (Permutation_in _ (Permutation_sym Hperm)), in_range. lia.
  - rewrite Nat2Z.id. apply Nat.eqb_refl.
Qed.

Lemma schedule_loop schedule :
  Permutation schedule (range (Z.of_nat (length snr))) ->
  for_each schedule (iteration C M Es snr)
    (repeat 0 (length snr), repeat 0 (length snr))
  = (ps <- mapM (point C M Es) snr ;; Some (map fst ps, map snd ps)).
Proof.
  intros Hperm.
  destruct (mapM (point C M Es) snr) as [ps|] eqn:Hps; cbn [bind].
  - destruct (schedule_some ps Hps schedule
                (repeat 0 (length snr), repeat 0 (length snr)))
      as [[mi gmi] [E [Hl1 [Hl2 [Hn1 Hn2]]]]].
    + intros i Hi. now apply in_range, (Permutation_in _ Hperm).
    + apply repeat_length.
    + apply repeat_length.
    + rewrite E. cbn [fst snd] in *.
      destruct (mapM_some _ _ _ Hps) as [Hlen _].
      f_equal. f_equal.
      * apply nth_error_ext. intros n. rewrite Hn1, nth_error_map.
        destruct (Nat.lt_ge_cases n (length snr)) as [Hlt|Hge].
        -- now rewrite schedule_covers.
        -- destruct (existsb _ schedule); [reflexivity|].
           replace (nth_error ps n) with (@None (R * R))
             by (symmetry; apply nth_error_None; lia).
           apply nth_error_None. rewrite repeat_length. lia.
      * apply nth_error_ext. intros n. rewrite Hn2, nth_error_map.
        destruct (Nat.lt_ge_cases n (length snr)) as [Hlt|Hge].
        -- now rewrite schedule_covers.
        -- destruct (existsb _ schedule); [reflexivity|].
           replace (nth_error ps n) with (@None (R * R))
             by (symmetry; apply nth_error_None; lia).
           apply nth_error_None. rewrite repeat_length. lia.
  - destruct (mapM_none _ _ Hps) as [x [Hin Hx]].
    apply In_nth_error in Hin. destruct Hin as [n Hn].
    assert (Hlt : (n < length snr)%nat).
    { apply nth_error_Some. now rewrite Hn. }
    apply (for_each_none _ _ (Z.of_nat n)).
    + apply (Permutation_in _ (Permutation_sym Hperm)), in_range. lia.
    + intros out. apply (iteration_none _ _ x); [|exact Hx].
      unfold read.
      replace (Z.of_nat n <? 0)%Z with false
        by (symmetry; apply Z.ltb_ge; lia).
      now rewrite Nat2Z.id.
Qed.

(** The slot [j] of a completed run holds the evaluation of the [j]-th SNR
    value; the run is undefined exactly when that evaluation is. *)
Lemma output_at_mapM j x :
  nth_error snr j = Some x ->
  output_at (ps <- mapM (point C M Es) snr ;;
             Some (Outputs (map fst ps) (map snd ps))) j
  = point C M Es x.
Proof.
  intros Hx.
  destruct (mapM (point C M Es) snr) as [ps|] eqn:Hps; cbn [bind output_at].
  - destruct (mapM_some _ _ _ Hps) as [_ Hpt].
    destruct (Hpt _ _ Hx) as [p [Hp Hnp]].
    rewrite !nth_error_map, Hnp, Hp. cbn. now destruct p.
  - destruct (mapM_none _ _ Hps) as [a [_ Ha]].
    symmetry. exact (proj1 (point_same_def C M Es a x) Ha).
Qed.

End Driver.

Section DriverTheorems.

Local Open Scope R_scope.

Lemma mexFunction_value schedule nlhs nrhs C snr :
  nrhs = 2%Z -> (nlhs <= 2)%Z ->
  Permutation schedule (range (Z.of_nat (length snr))) ->
  mexFunction schedule nlhs nrhs C snr =
    (Es <- symbol_energy C (to_int (Z.of_nat (length C))) ;;
     ps <- mapM (point C (to_int (Z.of_nat (length C))) Es) snr ;;
     Some (Outputs (map fst ps) (map snd ps))).
Proof.
  intros -> Hnlhs Hperm. unfold mexFunction. cbn [Z.eqb Pos.eqb negb].
  replace (2 <? nlhs)%Z with false by (symmetry; apply Z.ltb_ge; lia).
  destruct (symbol_energy C _) as [Es|]; cbn [bind]; [|reflexivity].
  rewrite schedule_loop by exact Hperm.
  now destruct (mapM _ snr).
Qed.

Lemma to_int_length (C : list complex) :
  (Z.of_nat (length C) <= INT_MAX)%Z ->
  to_int (Z.of_nat (length C)) = Z.of_nat (length C).
Proof. intros H. apply to_int_small. unfold INT_MAX in H. lia. Qed.

(** C5: the driver computes the symbol energy [Es = mean(|C_i|^2)] once and
    uses that same value for every SNR point; for each SNR value [SNR_i] it
    derives [sigma_i = sqrt(Es) * 10^(-SNR_i/20)] and invokes both estimators
    with it: the outputs are the evaluations [point C M Es SNR_i] in the
    order of the SNR list, whatever the schedule of the iterations. *)
Theorem mexFunction_sigma :
  forall (schedule : list Z) (nlhs nrhs : Z) (C : list complex)
         (snr : list R),
    nrhs = 2%Z -> (nlhs <= 2)%Z ->
    Permutation schedule (range (Z.of_nat (length snr))) ->
    (Z.of_nat (length C) <= INT_MAX)%Z ->
    let M := Z.of_nat (length C) in
    symbol_energy C M = Some (Es_spec C) /\
    mexFunction schedule nlhs nrhs C snr =
      (ps <- mapM (fun snr_i =>
                     let sigma := sqrt (Es_spec C) * Rpower 10 (- snr_i / 20) in
                     mi_i <- qam_eval_mi C M sigma ;;
                     gmi_i <- qam_eval_gmi C M sigma ;;
                     Some (mi_i, gmi_i)) snr ;;
       Some (Outputs (map fst ps) (map snd ps))).
Proof.
  intros schedule nlhs nrhs C snr Hnrhs Hnlhs Hperm Hmax M.
  assert (HEs : symbol_energy C M = Some (Es_spec C))
    by now apply symbol_energy_value.
  split; [exact HEs|].
  rewrite mexFunction_value by assumption.
  rewrite to_int_length by exact Hmax. fold M. rewrite HEs. reflexivity.
Qed.

Lemma mexFunction_sigma_witness :
  symbol_energy [mkc 1 0; mkc (-1) 0] 2
    = Some (Es_spec [mkc 1 0; mkc (-1) 0]) /\
  mexFunction [1%Z; 0%Z] 2 2 [mkc 1 0; mkc (-1) 0] [0; 10] =
    (ps <- mapM (fun snr_i =>
                   let sigma := sqrt (Es_spec [mkc 1 0; mkc (-1) 0])
                                * Rpower 10 (- snr_i / 20) in
                   mi_i <- qam_eval_mi [mkc 1 0; mkc (-1) 0] 2 sigma ;;
                   gmi_i <- qam_eval_gmi [mkc 1 0; mkc (-1) 0] 2 sigma ;;
                   Some (mi_i, gmi_i)) [0; 10] ;;
     Some (Outputs (map fst ps) (map snd ps))).
Proof.
  apply (mexFunction_sigma [1%Z; 0%Z] 2 2 [mkc 1 0; mkc (-1) 0] [0; 10]).
  - reflexivity.
  - lia.
  - apply perm_swap.
  - unfold INT_MAX. cbn. lia.
Defined.

(** C7: for every constellation and every pair of SNR lists that agree at
    index [j], the MI and GMI outputs at index [j] are identical, whatever
    the two schedules of the iterations; and output index [j] is the
    evaluation of input SNR index [j]: it is determined by [C], [Es] and that
    SNR value alone. *)
Theorem mexFunction_independent :
  forall (schedule1 schedule2 : list Z) (nlhs nrhs : Z) (C : list complex)
         (snr1 snr2 : list R) (j : nat) (snr_j : R),
    Permutation schedule1 (range (Z.of_nat (length snr1))) ->
    Permutation schedule2 (range (Z.of_nat (length snr2))) ->
    nth_error snr1 j = Some snr_j ->
    nth_error snr2 j = Some snr_j ->
    output_at (mexFunction schedule1 nlhs nrhs C snr1) j
      = output_at (mexFunction schedule2 nlhs nrhs C snr2) j /\
    (nrhs = 2%Z -> (nlhs <= 2)%Z ->
     output_at (mexFunction schedule1 nlhs nrhs C snr1) j
       = (Es <- symbol_energy C (to_int (Z.of_nat (length C))) ;;
          point C (to_int (Z.of_nat (length C))) Es snr_j)).
Proof.
  intros schedule1 schedule2 nlhs nrhs C snr1 snr2 j snr_j
         Hp1 Hp2 H1 H2.
  assert (Hvalid : forall schedule snr,
            Permutation schedule (range (Z.of_nat (length snr))) ->
            nth_error snr j = Some snr_j ->
            nrhs = 2%Z -> (nlhs <= 2)%Z ->
            output_at (mexFunction schedule nlhs nrhs C snr) j
            = (Es <- symbol_energy C (to_int (Z.of_nat (length C))) ;;
               point C (to_int (Z.of_nat (length C))) Es snr_j)).
  { intros schedule snr Hp Hj Hnrhs Hnlhs.
    rewrite mexFunction_value by assumption.
    destruct (symbol_energy C _) as [Es|]; cbn [bind]; [|reflexivity].
    now apply output_at_mapM. }
  split; [|now apply Hvalid].
  destruct (Z.eq_dec nrhs 2) as [Hnrhs|Hnrhs].
  - destruct (Z.le_gt_cases nlhs 2) as [Hnlhs|Hnlhs].
    + now rewrite !Hvalid.
    + unfold mexFunction. subst nrhs. cbn [Z.eqb Pos.eqb negb].
      now replace (2 <? nlhs)%Z with true by (symmetry; apply Z.ltb_lt; lia).
  - unfold mexFunction.
    now replace (nrhs =? 2)%Z with false by (symmetry; apply Z.eqb_neq; lia).
Qed.

Lemma mexFunction_independent_witness :
  output_at (mexFunction [0%Z; 1%Z; 2%Z] 2 2 [mkc 1 0; mkc (-1) 0]
               [20; 0; 10]) 1
    = output_at (mexFunction [1%Z; 0%Z] 2 2 [mkc 1 0; mkc (-1) 0] [5; 0]) 1 /\
  (2%Z = 2%Z -> (2 <= 2)%Z ->
   output_at (mexFunction [0%Z; 1%Z; 2%Z] 2 2 [mkc 1 0; mkc (-1) 0]
                [20; 0; 10]) 1
     = (Es <- symbol_energy [mkc 1 0; mkc (-1) 0]
                (to_int (Z.of_nat (length [mkc 1 0; mkc (-1) 0]))) ;;
        point [mkc 1 0; mkc (-1) 0]
          (to_int (Z.of_nat (length [mkc 1 0; mkc (-1) 0]))) Es 0)).
Proof.
  apply (mexFunction_independent [0%Z; 1%Z; 2%Z] [1%Z; 0%Z] 2 2
           [mkc 1 0; mkc (-1) 0] [20; 0; 10] [5; 0] 1 0).
  - apply Permutation_refl.
  - apply perm_swap.
  - reflexivity.
  - reflexivity.
Defined.

(** C4, as amended: before any arithmetic the driver validates its argument
    counts only, and fails fast with a specific identifier, producing no
    output: [nrhs] when the number of inputs is not 2, [nlhs] when more than
    two outputs are requested.  No other error is ever reported: neither the
    size [M] nor the derived [sigma] is validated. *)
Theorem mexFunction_errors :
  forall (schedule : list Z) (nlhs nrhs : Z) (C : list complex)
         (snr : list R) (id : string),
    mexFunction schedule nlhs nrhs C snr = Some (MexError id) <->
    (nrhs <> 2%Z /\ id = "dsp-library:qam_gmi_mex:nrhs"%string) \/
    (nrhs = 2%Z /\ (2 < nlhs)%Z /\ id = "dsp-library:qam_gmi_mex:nlhs"%string).
Proof.
  intros schedule nlhs nrhs C snr id. unfold mexFunction.
  destruct (Z.eqb_spec nrhs 2) as [Hnrhs|Hnrhs]; cbn [negb].
  - destruct (Z.ltb_spec 2 nlhs) as [Hnlhs|Hnlhs].
    + split.
      * intros E. injection E as <-. right. now repeat split.
      * intros [[Hne _]|[_ [_ ->]]]; [contradiction|reflexivity].
    + split.
      * destruct (symbol_energy C _) as [Es|]; [cbn [bind]|discriminate].
        destruct (for_each schedule _ _) as [out|]; discriminate.
      * intros [[Hne _]|[_ [Hlt _]]]; [contradiction|lia].
  - split.
    + intros E. injection E as <-. left. now split.
    + intros [[_ ->]|[Heq _]]; [reflexivity|contradiction].
Qed.

Lemma mapM_all_some {A B : Type} (f : A -> option B) (g : A -> B)
    (l : list A) :
  (forall a, In a l -> f a = Some (g a)) -> mapM f l = Some (map g l).
Proof.
  induction l as [|a l IH]; intros H; cbn [mapM map]; [reflexivity|].
  rewrite (H a) by (now left). cbn [bind].
  rewrite IH by (intros a0 Ha0; apply H; now right). reflexivity.
Qed.

(** On a constellation of [M = 2^m] points and with valid argument counts
    the embedded driver is defined, whatever the schedule, and returns for
    each SNR value the two quantities of the specification at the derived
    noise level.  For a constellation of zero energy the noise level is
    zero and the equation holds in the embedding only, where a division by
    zero is the total one of the real numbers; the code divides by zero
    there. *)
Lemma mexFunction_valid schedule nlhs nrhs C snr m :
  nrhs = 2%Z -> (nlhs <= 2)%Z ->
  Permutation schedule (range (Z.of_nat (length snr))) ->
  (0 <= m <= 30)%Z -> Z.of_nat (length C) = (2 ^ m)%Z ->
  mexFunction schedule nlhs nrhs C snr =
    Some (Outputs
            (map (fun snr_i => MI_spec C (sigma_of (Es_spec C) snr_i)) snr)
            (map (fun snr_i => GMI_spec C m (sigma_of (Es_spec C) snr_i))
                 snr)).
Proof.
  intros Hnrhs Hnlhs Hperm Hm HC.
  assert (Hmax : (Z.of_nat (length C) <= INT_MAX)%Z).
  { rewrite HC. pose proof (pow2_le_30 m Hm). unfold INT_MAX. lia. }
  rewrite mexFunction_value by assumption.
  rewrite to_int_length by exact Hmax.
  rewrite symbol_energy_value by reflexivity. cbn [bind].
  rewrite (mapM_all_some _
    (fun snr_i => (MI_spec C (sigma_of (Es_spec C) snr_i),
                   GMI_spec C m (sigma_of (Es_spec C) snr_i)))).
  - cbn [bind]. rewrite !map_map. reflexivity.
  - intros snr_i _. unfold point.
    rewrite qam_eval_mi_value by reflexivity. cbn [bind].
    rewrite (qam_eval_gmi_value C _ m) by (try reflexivity; assumption).
    reflexivity.
Qed.

Lemma for_each_defined {A I : Type} (l : list I)
    (body : I -> A -> option A) :
  (forall i a, In i l -> exists a', body i a = Some a') ->
  forall acc, exists r, for_each l body acc = Some r.
Proof.
  induction l as [|i l IH]; intros Hbody acc; cbn [for_each].
  - now exists acc.
  - destruct (Hbody i acc (or_introl eq_refl)) as [a' ->].
    apply IH. intros j a Hj. apply Hbody. now right.
Qed.

Lemma bind_defined {A B : Type} (o : option A) (f : A -> option B) :
  (exists a, o = Some a) -> (forall a, exists b, f a = Some b) ->
  exists b, bind o f = Some b.
Proof. intros [a ->] Hf. cbn [bind]. apply Hf. Qed.

(** On three points [qam_eval_gmi] works with the truncated width
    [m = (int)log2(3) = 1] and [M/2 = 1]: it reads [C[0]], [C[1]] and [C[2]]
    only and returns a value. *)
Lemma qam_eval_gmi_3_points C s :
  length C = 3%nat -> exists g, qam_eval_gmi C 3 s = Some g.
Proof.
  intros HC. unfold qam_eval_gmi.
  change (int_log2 3) with (Some 1%Z). cbn [bind].
  change (Z.quot 3 2) with 1%Z.
  assert (Hread : forall i, (0 <= i < 3)%Z -> read C i = Some (C_at C i)).
  { intros i Hi. apply read_some. rewrite HC. exact Hi. }
  assert (Hidx : forall b, (0 <= b < 2)%Z -> gmi_index 0 0 1 b = Some b).
  { intros b Hb. assert (Hc : b = 0%Z \/ b = 1%Z) by lia.
    destruct Hc as [-> | ->]; reflexivity. }
  apply bind_defined; [|intros GMI; eauto].
  unfold for_loop.
  apply for_each_defined. intros k a Hk. apply in_range in Hk.
  assert (k = 0%Z) by lia. subst k.
  apply for_each_defined. intros b a1 Hb. apply in_range in Hb.
  apply for_each_defined. intros i a2 Hi. apply in_range in Hi.
  assert (i = 0%Z) by lia. subst i.
  rewrite Hidx by exact Hb. cbn [bind].
  apply for_each_defined. intros l1 a3 _.
  apply for_each_defined. intros l2 a4 _.
  apply bind_defined; [|intros num; apply bind_defined; [|intros den; eauto]].
  - unfold gmi_num, for_loop. apply for_each_defined.
    intros j t Hj. apply in_range in Hj.
    rewrite !Hread by lia. cbn [bind]. eauto.
  - unfold gmi_den, for_loop. change (Z.quot 3 2) with 1%Z.
    apply for_each_defined.
    intros j t Hj. apply in_range in Hj. assert (j = 0%Z) by lia. subst j.
    rewrite Hidx by exact Hb. cbn [bind].
    rewrite !Hread by lia. cbn [bind]. eauto.
Qed.

(** C4, as stated, fails: 3 is not a power of two, and called on a
    constellation of three points the driver reports no error and returns
    one MI and one GMI value. *)
Lemma mexFunction_accepts_3_points :
  (~ exists m : Z, (0 <= m)%Z /\ 3%Z = (2 ^ m)%Z) /\
  exists mi gmi,
    mexFunction [0%Z] 2 2 [mkc 1 0; mkc 0 1; mkc (-1) 0] [0]
      = Some (Outputs [mi] [gmi]).
Proof.
  split.
  - intros [m [Hm E]].
    assert (Hc : (m = 0 \/ m = 1 \/ 2 <= m)%Z) by lia.
    destruct Hc as [-> | [-> | Hge]]; try discriminate.
    assert (H4 : (2 ^ 2 <= 2 ^ m)%Z) by (apply Z.pow_le_mono_r; lia).
    change (2 ^ 2)%Z with 4%Z in H4. lia.
  - rewrite mexFunction_value; [|reflexivity|lia|apply Permutation_refl].
    change (to_int (Z.of_nat (length [mkc 1 0; mkc 0 1; mkc (-1) 0])))
      with 3%Z.
    rewrite symbol_energy_value by reflexivity. cbn [bind mapM].
    unfold point.
    rewrite qam_eval_mi_value by reflexivity. cbn [bind].
    destruct (qam_eval_gmi_3_points [mkc 1 0; mkc 0 1; mkc (-1) 0]
                (sigma_of (Es_spec [mkc 1 0; mkc 0 1; mkc (-1) 0]) 0)
                eq_refl) as [g ->].
    cbn [bind map fst snd]. eauto.
Qed.

End DriverTheorems.

(** * Further properties of the code *)

(** ** Array bounds *)

Lemma read_none {A : Type} (a : list A) (i : Z) :
  ~ 0 <= i < Z.of_nat (length a) -> read a i = None.
Proof.
  intros Hi. unfold read.
  destruct (Z.ltb_spec i 0) as [Hneg|Hpos]; [reflexivity|].
  apply nth_error_None. lia.
Qed.

Lemma zero_in_N_GH : In 0 (range N_GH).
Proof. apply in_range. unfold N_GH. lia. Qed.

(** X1: [symbol_energy] reads [C[0..M-1]]: it is undefined exactly when [M]
    exceeds the number of points of [C]. *)
Theorem symbol_energy_bounds :
  forall (C : list complex) (M : Z),
    symbol_energy C M = None <-> Z.of_nat (length C) < M.
Proof.
  intros C M. split.
  - intros Hnone.
    destruct (Z.lt_ge_cases (Z.of_nat (length C)) M) as [Hlt|Hge];
      [exact Hlt|exfalso].
    assert (Hdef : exists r,
              for_loop M (fun i Es => c <- read C i ;;
                                      Some (Es + pow_2 (cabs c))%R) 0%R
              = Some r).
    { unfold for_loop. apply for_each_defined. intros i a Hi.
      apply in_range in Hi.
      rewrite (read_some C i (mkc 0 0)) by lia. cbn [bind]. eauto. }
    destruct Hdef as [r Hr]. unfold symbol_energy in Hnone.
    rewrite Hr in Hnone. discriminate.
  - intros Hlt. unfold symbol_energy, for_loop.
    rewrite (for_each_none _ _ (Z.of_nat (length C))); [reflexivity| |].
    + apply in_range. lia.
    + intros a. now rewrite read_none by lia.
Qed.

(** X2: [qam_eval_mi] reads [C[0..M-1]]: it is undefined exactly when [M]
    exceeds the number of points of [C]. *)
Theorem qam_eval_mi_bounds :
  forall (C : list complex) (M : Z) (s : R),
    qam_eval_mi C M s = None <-> Z.of_nat (length C) < M.
Proof.
  intros C M s. split.
  - intros Hnone.
    destruct (Z.lt_ge_cases (Z.of_nat (length C)) M) as [Hlt|Hge];
      [exact Hlt|exfalso].
    assert (Hdef : exists r, qam_eval_mi C M s = Some r).
    { unfold qam_eval_mi. apply bind_defined; [|intros MI; eauto].
      unfold for_loop.
      apply for_each_defined. intros i a Hi. apply in_range in Hi.
      apply for_each_defined. intros l1 a1 _.
      apply for_each_defined. intros l2 a2 _.
      apply bind_defined; [|intros tmp; eauto].
      unfold mi_tmp, for_loop. apply for_each_defined.
      intros j t Hj. apply in_range in Hj.
      rewrite (read_some C j (mkc 0 0)), (read_some C i (mkc 0 0)) by lia.
      cbn [bind]. eauto. }
    destruct Hdef as [r Hr]. rewrite Hr in Hnone. discriminate.
  - intros Hlt.
    assert (Htmp : mi_tmp C M s 0 0 0 = None).
    { unfold mi_tmp, for_loop.
      apply (for_each_none _ _ (Z.of_nat (length C))).
      - apply in_range. lia.
      - intros a. now rewrite read_none by lia. }
    unfold qam_eval_mi, for_loop.
    rewrite (for_each_none _ _ 0); [reflexivity| |].
    + apply in_range. lia.
    + intros a. apply (for_each_none _ _ 0); [apply zero_in_N_GH|].
      intros a1. apply (for_each_none _ _ 0); [apply zero_in_N_GH|].
      intros a2. now rewrite Htmp.
Qed.

(** ** Bounds on the values *)

Section ValueBounds.

Local Open Scope R_scope.

Lemma GMI_spec_le_m C m s :
  (1 <= m)%Z -> Z.of_nat (length C) = (2 ^ m)%Z ->
  GMI_spec C m s <= IZR m.
Proof.
  intros Hm HC. unfold GMI_spec.
  set (acc := Rsum _ _).
  assert (Hhalf : (Z.of_nat (length C) / 2 = 2 ^ (m - 1))%Z).
  { rewrite HC, <- Z.quot_div_nonneg by lia. now apply quot_pow2. }
  assert (Hacc : 0 <= acc).
  { apply Rsum_nonneg. intros k Hk. apply in_range in Hk.
    apply Rsum_nonneg. intros b Hb. apply in_range in Hb.
    apply Rsum_nonneg. intros i Hi. apply in_range in Hi.
    rewrite Hhalf in Hi.
    apply Rsum_nonneg. intros l1 _. apply Rsum_nonneg. intros l2 _.
    apply Rmult_le_pos.
    - apply Rmult_le_pos; apply w_at_nonneg.
    - apply log2_nonneg, quotient_ge_1.
      apply den_spec_bounds; try assumption; lia. }
  assert (Hpos : 0 < IZR (Z.of_nat (length C)) * PI).
  { apply Rmult_lt_0_compat; [|apply PI_RGT_0].
    apply IZR_lt. rewrite HC. apply Z.pow_pos_nonneg; lia. }
  assert (Hq : (0 - acc) / (IZR (Z.of_nat (length C)) * PI) <= 0).
  { unfold Rdiv. rewrite <- (Rmult_0_l (/ (IZR (Z.of_nat (length C)) * PI))).
    apply Rmult_le_compat_r; [|lra].
    left. now apply Rinv_0_lt_compat. }
  lra.
Qed.

(** X3: in exact arithmetic the value returned by [qam_eval_mi] on a
    constellation of [M >= 1] points never exceeds [log2 M]: every
    accumulated term [w_l1 w_l2 log2 T] is subtracted and is not negative. *)
Theorem qam_eval_mi_le_log2 :
  forall (C : list complex) (M : Z) (sigma : R),
    (1 <= M)%Z -> M = Z.of_nat (length C) -> 0 < sigma ->
    exists MI, qam_eval_mi C M sigma = Some MI /\ MI <= log2 (IZR M).
Proof.
  intros C M sigma HM HC _. exists (MI_spec C sigma). split.
  - now apply qam_eval_mi_value.
  - rewrite HC. apply MI_spec_le_log2. lia.
Qed.

Lemma qam_eval_mi_le_log2_witness :
  exists MI, qam_eval_mi [mkc 1 0; mkc (-1) 0] 2 1 = Some MI /\
             MI <= log2 (IZR 2).
Proof.
  apply (qam_eval_mi_le_log2 [mkc 1 0; mkc (-1) 0] 2 1);
    [lia|reflexivity|lra].
Defined.

(** X4: in exact arithmetic the value returned by [qam_eval_gmi] on a
    constellation of [M = 2^m] points never exceeds [m]: every accumulated
    term [w_l1 w_l2 log2(numerator/denominator)] is subtracted and is not
    negative. *)
Theorem qam_eval_gmi_le_m :
  forall (C : list complex) (M m : Z) (sigma : R),
    (1 <= m)%Z -> M = (2 ^ m)%Z -> (M <= INT_MAX)%Z ->
    M = Z.of_nat (length C) -> 0 < sigma ->
    exists GMI, qam_eval_gmi C M sigma = Some GMI /\ GMI <= IZR m.
Proof.
  intros C M m sigma Hm HM Hmax HC _. exists (GMI_spec C m sigma).
  assert (Hm30 : (m <= 30)%Z).
  { destruct (Z.le_gt_cases m 30) as [Hle|Hgt]; [exact Hle|exfalso].
    assert (H31 : (2 ^ 31 <= 2 ^ m)%Z) by (apply Z.pow_le_mono_r; lia).
    unfold INT_MAX in Hmax. lia. }
  split.
  - apply qam_eval_gmi_value; try assumption. lia.
  - apply GMI_spec_le_m; [exact Hm|]. now rewrite <- HC.
Qed.

Lemma qam_eval_gmi_le_m_witness :
  exists GMI, qam_eval_gmi [mkc 1 0; mkc (-1) 0] 2 1 = Some GMI /\
              GMI <= IZR 1.
Proof.
  apply (qam_eval_gmi_le_m [mkc 1 0; mkc (-1) 0] 2 1 1);
    [lia|reflexivity|unfold INT_MAX; lia|reflexivity|lra].
Defined.

Lemma Rsum_zero {A : Type} (l : list A) (f : A -> R) :
  (forall a, In a l -> f a = 0) -> Rsum l f = 0.
Proof.
  induction l as [|a l IH]; intros H; [reflexivity|].
  rewrite Rsum_cons, (H a) by (now left).
  rewrite IH by (intros a0 Ha0; apply H; now right). lra.
Qed.

Lemma log2_1 : log2 1 = 0.
Proof. unfold log2. rewrite ln_1. unfold Rdiv. ring. Qed.

(** X5: on a constellation of a single point both estimators return 0,
    whatever the point and the noise level: the only term of every inner sum
    is [exp 0 = 1], and the label width is 0. *)
Theorem single_point_zero :
  forall (c : complex) (sigma : R),
    0 < sigma ->
    qam_eval_mi [c] 1 sigma = Some 0 /\ qam_eval_gmi [c] 1 sigma = Some 0.
Proof.
  intros c sigma _. split.
  - rewrite qam_eval_mi_value by reflexivity. f_equal.
    unfold MI_spec. cbn [length Z.of_nat Pos.of_succ_nat].
    rewrite (Rsum_zero (range 1)).
    + rewrite log2_1. unfold Rdiv. ring.
    + intros i Hi. apply in_range in Hi. assert (i = 0%Z) by lia. subst i.
      apply Rsum_zero. intros l1 _. apply Rsum_zero. intros l2 _.
      unfold T_spec. cbn [length Z.of_nat Pos.of_succ_nat].
      change (range 1) with [0%Z]. rewrite Rsum_cons, Rsum_nil.
      rewrite spec_term_self, Rplus_0_r, log2_1. ring.
  - rewrite (qam_eval_gmi_value [c] 1 0) by (try reflexivity; lia). f_equal.
    unfold GMI_spec. change (range 0) with (@nil Z). rewrite Rsum_nil.
    unfold Rdiv. ring.
Qed.

Lemma single_point_zero_witness :
  qam_eval_mi [mkc 3 4] 1 2 = Some 0 /\ qam_eval_gmi [mkc 3 4] 1 2 = Some 0.
Proof. apply (single_point_zero (mkc 3 4) 2). lra. Defined.

End ValueBounds.

(** ** Invariance under translation and scaling *)

Lemma for_each_ext {A I : Type} (l : list I)
    (body body' : I -> A -> option A) :
  (forall i a, In i l -> body i a = body' i a) ->
  forall acc, for_each l body acc = for_each l body' acc.
Proof.
  induction l as [|i l IH]; intros Hbody acc; cbn [for_each].
  - reflexivity.
  - rewrite Hbody by (now left).
    destruct (body' i acc); [|reflexivity].
    apply IH. intros j a0 Hj. apply Hbody. now right.
Qed.

Lemma read_map {A B : Type} (f : A -> B) (a : list A) (i : Z) :
  read (map f a) i = option_map f (read a i).
Proof.
  unfold read. destruct (i <? 0); [reflexivity|]. apply nth_error_map.
Qed.

Lemma mapM_ext {A B : Type} (f g : A -> option B) (l : list A) :
  (forall a, In a l -> f a = g a) -> mapM f l = mapM g l.
Proof.
  induction l as [|a l IH]; intros H; cbn [mapM]; [reflexivity|].
  rewrite (H a) by (now left).
  rewrite IH by (intros a0 Ha0; apply H; now right). reflexivity.
Qed.

Lemma bind_congr {A B : Type} (o o' : option A) (f : A -> option B) :
  o = o' -> bind o f = bind o' f.
Proof. now intros ->. Qed.

Section Invariance.

Local Open Scope R_scope.

(** The estimators see the constellation through a summand that is the same
    on [f p], [f q] at noise level [s'] as on [p], [q] at noise level [s]. *)
Variables (f : complex -> complex) (s s' : R).
Hypothesis lik_f :
  forall l1 l2 p q, lik s' l1 l2 (f p) (f q) = lik s l1 l2 p q.

Lemma mi_tmp_map C M i l1 l2 :
  mi_tmp (map f C) M s' i l1 l2 = mi_tmp C M s i l1 l2.
Proof.
  unfold mi_tmp, for_loop. apply for_each_ext. intros j t _.
  rewrite !read_map.
  destruct (read C j) as [cj|]; cbn [option_map bind]; [|reflexivity].
  destruct (read C i) as [ci|]; cbn [option_map bind]; [|reflexivity].
  now rewrite lik_f.
Qed.

Lemma qam_eval_mi_map C M :
  qam_eval_mi (map f C) M s' = qam_eval_mi C M s.
Proof.
  unfold qam_eval_mi, for_loop. apply bind_congr.
  apply for_each_ext. intros i a _.
  apply for_each_ext. intros l1 a1 _.
  apply for_each_ext. intros l2 a2 _.
  now rewrite mi_tmp_map.
Qed.

Lemma gmi_num_map C M bi l1 l2 :
  gmi_num (map f C) M s' bi l1 l2 = gmi_num C M s bi l1 l2.
Proof.
  unfold gmi_num, for_loop. apply for_each_ext. intros j t _.
  rewrite !read_map.
  destruct (read C bi) as [cbi|]; cbn [option_map bind]; [|reflexivity].
  destruct (read C j) as [cj|]; cbn [option_map bind]; [|reflexivity].
  now rewrite lik_f.
Qed.

Lemma gmi_den_map C M m k b bi l1 l2 :
  gmi_den (map f C) M s' m k b bi l1 l2 = gmi_den C M s m k b bi l1 l2.
Proof.
  unfold gmi_den, for_loop. apply for_each_ext. intros j t _.
  destruct (gmi_index j k m b) as [bj|]; cbn [bind]; [|reflexivity].
  rewrite !read_map.
  destruct (read C bi) as [cbi|]; cbn [option_map bind]; [|reflexivity].
  destruct (read C bj) as [cbj|]; cbn [option_map bind]; [|reflexivity].
  now rewrite lik_f.
Qed.

Lemma qam_eval_gmi_map C M :
  qam_eval_gmi (map f C) M s' = qam_eval_gmi C M s.
Proof.
  unfold qam_eval_gmi.
  destruct (int_log2 M) as [m|]; cbn [bind]; [|reflexivity].
  unfold for_loop. apply bind_congr.
  apply for_each_ext. intros k a _.
  apply for_each_ext. intros b a1 _.
  apply for_each_ext. intros i a2 _.
  destruct (gmi_index i k m b) as [bi|]; cbn [bind]; [|reflexivity].
  apply for_each_ext. intros l1 a3 _.
  apply for_each_ext. intros l2 a4 _.
  now rewrite gmi_num_map, gmi_den_map.
Qed.

End Invariance.

Section InvarianceTheorems.

Local Open Scope R_scope.

Lemma lik_translate c s l1 l2 p q :
  lik s l1 l2 (cadd c p) (cadd c q) = lik s l1 l2 p q.
Proof.
  unfold lik.
  replace (csub (cadd c p) (cadd c q)) with (csub p q); [reflexivity|].
  unfold csub, cadd. cbn [Re Im]. f_equal; ring.
Qed.

Lemma lik_scale a s l1 l2 p q :
  a <> 0 -> s <> 0 ->
  lik (a * s) l1 l2 (cscale a p) (cscale a q) = lik s l1 l2 p q.
Proof.
  intros Ha Hs. rewrite !lik_spec_term. unfold spec_term. f_equal.
  unfold cnorm2, csub, cscale. cbn [Re Im]. field. now split.
Qed.

(** X6: both estimators depend on the constellation only through the
    differences of its points: translating every point by the same complex
    number [c] changes neither result (nor whether it is defined), for every
    [M] and noise level. *)
Theorem estimators_translation_invariant :
  forall (C : list complex) (M : Z) (s : R) (c : complex),
    qam_eval_mi (map (cadd c) C) M s = qam_eval_mi C M s /\
    qam_eval_gmi (map (cadd c) C) M s = qam_eval_gmi C M s.
Proof.
  intros C M s c. split.
  - apply qam_eval_mi_map. intros. apply lik_translate.
  - apply qam_eval_gmi_map. intros. apply lik_translate.
Qed.

Lemma estimators_scale_pair C M s a :
  0 < a -> 0 < s ->
  qam_eval_mi (map (cscale a) C) M (a * s) = qam_eval_mi C M s /\
  qam_eval_gmi (map (cscale a) C) M (a * s) = qam_eval_gmi C M s.
Proof.
  intros Ha Hs. split.
  - apply qam_eval_mi_map. intros. apply lik_scale; lra.
  - apply qam_eval_gmi_map. intros. apply lik_scale; lra.
Qed.

(** X7: scaling every point and the noise level by the same factor [a > 0]
    changes neither estimator: the results depend on the ratio of the
    constellation to the noise level only. *)
Theorem estimators_scale_invariant :
  forall (C : list complex) (M : Z) (s a : R),
    0 < a -> 0 < s ->
    qam_eval_mi (map (cscale a) C) M (a * s) = qam_eval_mi C M s /\
    qam_eval_gmi (map (cscale a) C) M (a * s) = qam_eval_gmi C M s.
Proof.
  intros C M s a Ha Hs. now apply estimators_scale_pair.
Qed.

Lemma estimators_scale_invariant_witness :
  qam_eval_mi (map (cscale 3) [mkc 1 0; mkc (-1) 0]) 2 (3 * 1)
    = qam_eval_mi [mkc 1 0; mkc (-1) 0] 2 1 /\
  qam_eval_gmi (map (cscale 3) [mkc 1 0; mkc (-1) 0]) 2 (3 * 1)
    = qam_eval_gmi [mkc 1 0; mkc (-1) 0] 2 1.
Proof.
  apply (estimators_scale_invariant [mkc 1 0; mkc (-1) 0] 2 1 3); lra.
Defined.

Lemma Rsum_scal {A : Type} (l : list A) (g : A -> R) (a : R) :
  Rsum l (fun i => a * g i) = a * Rsum l g.
Proof.
  induction l as [|i l IH]; rewrite ?Rsum_cons, ?Rsum_nil; [ring|].
  rewrite IH. ring.
Qed.

Lemma Es_spec_scale a C :
  Es_spec (map (cscale a) C) = a * a * Es_spec C.
Proof.
  unfold Es_spec. rewrite length_map, Rsum_map.
  rewrite (Rsum_ext C _ (fun z => a * a * cnorm2 z)).
  - rewrite Rsum_scal. ring.
  - intros z _. unfold cnorm2, cscale. cbn [Re Im]. ring.
Qed.

Lemma sigma_of_scale a Es snr_i :
  0 <= a -> 0 <= Es ->
  sigma_of (a * a * Es) snr_i = a * sigma_of Es snr_i.
Proof.
  intros Ha HEs. unfold sigma_of.
  rewrite sqrt_mult by nra. rewrite sqrt_square by exact Ha. ring.
Qed.

Lemma sigma_of_pos Es snr_i : 0 < Es -> 0 < sigma_of Es snr_i.
Proof.
  intros HEs. unfold sigma_of. apply Rmult_lt_0_compat.
  - now apply sqrt_lt_R0.
  - unfold Rpower. apply exp_pos.
Qed.

(** X8: the driver normalises the noise level by the symbol energy: scaling
    a constellation of non-zero energy by a factor [a > 0] leaves the whole
    result of [mexFunction] unchanged, for every SNR list and schedule. *)
Theorem mexFunction_scale_invariant :
  forall (schedule : list Z) (nlhs nrhs : Z) (C : list complex)
         (snr : list R) (a : R),
    nrhs = 2%Z -> (nlhs <= 2)%Z ->
    Permutation schedule (range (Z.of_nat (length snr))) ->
    (Z.of_nat (length C) <= INT_MAX)%Z ->
    0 < a -> 0 < Es_spec C ->
    mexFunction schedule nlhs nrhs (map (cscale a) C) snr
      = mexFunction schedule nlhs nrhs C snr.
Proof.
  intros schedule nlhs nrhs C snr a Hnrhs Hnlhs Hperm Hmax Ha HEs.
  rewrite !mexFunction_value by assumption.
  rewrite length_map, to_int_length by exact Hmax.
  rewrite (symbol_energy_value (map (cscale a) C))
    by now rewrite length_map.
  rewrite (symbol_energy_value C) by reflexivity. cbn [bind].
  rewrite Es_spec_scale.
  rewrite (mapM_ext _ (point C (Z.of_nat (length C)) (Es_spec C))).
  - reflexivity.
  - intros snr_i _. unfold point.
    rewrite sigma_of_scale by lra.
    pose proof (sigma_of_pos (Es_spec C) snr_i HEs) as Hs.
    destruct (estimators_scale_pair C (Z.of_nat (length C))
                (sigma_of (Es_spec C) snr_i) a Ha Hs) as [-> ->].
    reflexivity.
Qed.

Lemma Es_spec_two_points : 0 < Es_spec [mkc 1 0; mkc (-1) 0].
Proof.
  unfold Es_spec, cnorm2. rewrite !Rsum_cons, Rsum_nil.
  cbn [length INR Re Im]. lra.
Qed.

Lemma mexFunction_scale_invariant_witness :
  mexFunction [1%Z; 0%Z] 2 2 (map (cscale 3) [mkc 1 0; mkc (-1) 0]) [0; 10]
    = mexFunction [1%Z; 0%Z] 2 2 [mkc 1 0; mkc (-1) 0] [0; 10].
Proof.
  apply (mexFunction_scale_invariant [1%Z; 0%Z] 2 2
           [mkc 1 0; mkc (-1) 0] [0; 10] 3).
  - reflexivity.
  - lia.
  - apply perm_swap.
  - unfold INT_MAX. cbn. lia.
  - lra.
  - apply Es_spec_two_points.
Defined.

End InvarianceTheorems.

(** ** The driver on well-formed input *)

Section DriverProperties.

Local Open Scope R_scope.

(** X9: on a constellation of [M = 2^m] points with non-zero mean energy
    and with valid argument counts the driver never runs into undefined
    behaviour and its result does not depend on the schedule of the
    parallel loop: output [i] is [MI] and [GMI] of the specification at
    [sigma_i = sqrt(Es) * 10^(-SNR_i/20)], and every [sigma_i] is positive,
    so that no division in [lik] is by zero. *)
Theorem mexFunction_defined_on_power_of_two :
  forall (schedule : list Z) (nlhs nrhs : Z) (C : list complex)
         (snr : list R) (m : Z),
    nrhs = 2%Z -> (nlhs <= 2)%Z ->
    Permutation schedule (range (Z.of_nat (length snr))) ->
    (0 <= m <= 30)%Z -> Z.of_nat (length C) = (2 ^ m)%Z ->
    0 < Es_spec C ->
    (forall snr_i, 0 < sigma_of (Es_spec C) snr_i) /\
    mexFunction schedule nlhs nrhs C snr =
      Some (Outputs
              (map (fun snr_i => MI_spec C (sigma_of (Es_spec C) snr_i)) snr)
              (map (fun snr_i => GMI_spec C m (sigma_of (Es_spec C) snr_i))
                   snr)).
Proof.
  intros schedule nlhs nrhs C snr m Hnrhs Hnlhs Hperm Hm HC HEs.
  split.
  - intros snr_i. now apply sigma_of_pos.
  - now apply mexFunction_valid.
Qed.

Lemma mexFunction_defined_on_power_of_two_witness :
  (forall snr_i, 0 < sigma_of (Es_spec [mkc 1 0; mkc (-1) 0]) snr_i) /\
  mexFunction [1%Z; 0%Z] 2 2 [mkc 1 0; mkc (-1) 0] [0; 10] =
    Some (Outputs
            (map (fun snr_i =>
                    MI_spec [mkc 1 0; mkc (-1) 0]
                      (sigma_of (Es_spec [mkc 1 0; mkc (-1) 0]) snr_i))
                 [0; 10])
            (map (fun snr_i =>
                    GMI_spec [mkc 1 0; mkc (-1) 0] 1
                      (sigma_of (Es_spec [mkc 1 0; mkc (-1) 0]) snr_i))
                 [0; 10])).
Proof.
  apply (mexFunction_defined_on_power_of_two [1%Z; 0%Z] 2 2
           [mkc 1 0; mkc (-1) 0] [0; 10] 1).
  - reflexivity.
  - lia.
  - apply perm_swap.
  - lia.
  - reflexivity.
  - apply Es_spec_two_points.
Defined.

(** X10: whenever the driver returns outputs, both output vectors have
    exactly one entry per SNR value. *)
Theorem mexFunction_output_lengths :
  forall (schedule : list Z) (nlhs nrhs : Z) (C : list complex)
         (snr mi gmi : list R),
    Permutation schedule (range (Z.of_nat (length snr))) ->
    mexFunction schedule nlhs nrhs C snr = Some (Outputs mi gmi) ->
    length mi = length snr /\ length gmi = length snr.
Proof.
  intros schedule nlhs nrhs C snr mi gmi Hperm Hrun.
  destruct (Z.eq_dec nrhs 2) as [Hnrhs|Hnrhs].
  2:{ unfold mexFunction in Hrun.
      replace (nrhs =? 2)%Z with false in Hrun
        by (symmetry; apply Z.eqb_neq; lia).
      discriminate. }
  destruct (Z.le_gt_cases nlhs 2) as [Hnlhs|Hnlhs].
  2:{ unfold mexFunction in Hrun. subst nrhs.
      cbn [Z.eqb Pos.eqb negb] in Hrun.
      replace (2 <? nlhs)%Z with true in Hrun
        by (symmetry; apply Z.ltb_lt; lia).
      discriminate. }
  rewrite mexFunction_value in Hrun by assumption.
  destruct (symbol_energy C _) as [Es|]; cbn [bind] in Hrun;
    [|discriminate].
  destruct (mapM _ snr) as [ps|] eqn:Hps; cbn [bind] in Hrun;
    [|discriminate].
  injection Hrun as <- <-.
  destruct (mapM_some _ _ _ Hps) as [Hlen _].
  now rewrite !length_map.
Qed.

Lemma mexFunction_output_lengths_witness :
  length [MI_spec [mkc 1 0] (sigma_of (Es_spec [mkc 1 0]) 0)]
    = length [0] /\
  length [GMI_spec [mkc 1 0] 0 (sigma_of (Es_spec [mkc 1 0]) 0)]
    = length [0].
Proof.
  apply (mexFunction_output_lengths [0%Z] 2 2 [mkc 1 0] [0]).
  - apply Permutation_refl.
  - apply (mexFunction_valid [0%Z] 2 2 [mkc 1 0] [0] 0).
    + reflexivity.
    + lia.
    + apply Permutation_refl.
    + lia.
    + reflexivity.
Defined.

(** X11: with an empty SNR list the estimators are never called: whatever
    the constellation (of a size an [int] holds), the driver returns two
    empty output vectors. *)
Theorem mexFunction_empty_snr :
  forall (nlhs nrhs : Z) (C : list complex),
    nrhs = 2%Z -> (nlhs <= 2)%Z ->
    (Z.of_nat (length C) <= INT_MAX)%Z ->
    mexFunction [] nlhs nrhs C [] = Some (Outputs [] []).
Proof.
  intros nlhs nrhs C Hnrhs Hnlhs Hmax.
  rewrite mexFunction_value; [|assumption|assumption|apply Permutation_refl].
  rewrite to_int_length by exact Hmax.
  now rewrite symbol_energy_value by reflexivity.
Qed.

Lemma mexFunction_empty_snr_witness :
  mexFunction [] 2 2 [mkc 1 0; mkc 2 0; mkc 3 0] [] = Some (Outputs [] []).
Proof.
  apply (mexFunction_empty_snr 2 2 [mkc 1 0; mkc 2 0; mkc 3 0]).
  - reflexivity.
  - lia.
  - unfold INT_MAX. cbn. lia.
Defined.

End DriverProperties.

(** ** The symbol indices visited by qam_eval_gmi *)

Lemma filter_partition_Permutation {A : Type} (p : A -> bool) (l : list A) :
  Permutation (filter p l ++ filter (fun a => negb (p a)) l) l.
Proof.
  induction l as [|a l IH]; cbn [filter]; [constructor|].
  destruct (p a); cbn [negb app].
  - now constructor.
  - apply Permutation_sym, Permutation_cons_app, Permutation_sym, IH.
Qed.

Lemma bit_is_1_negb k j : bit_is k 1 j = negb (bit_is k 0 j).
Proof. unfold bit_is. cbn. now destruct (Z.testbit j k). Qed.

(** X12: for every bit position [k], the loops over the bit value [b] and
    the compact index [i] of [qam_eval_gmi] visit every one of the [M = 2^m]
    symbols exactly once: the indices [insert_zero(i,k,m) + (b<<k)] are all
    defined and form a rearrangement of [0, ..., M-1]. *)
Theorem gmi_index_partition :
  forall m k : Z,
    1 <= m <= 30 -> 0 <= k < m ->
    exists l,
      mapM (fun bi => gmi_index (snd bi) k m (fst bi))
           (list_prod (range 2) (range (2 ^ (m - 1)))) = Some l /\
      Permutation l (range (2 ^ m)).
Proof.
  intros m k Hm Hk.
  exists (map (fun bi => bi_spec (snd bi) k m (fst bi))
              (list_prod (range 2) (range (2 ^ (m - 1))))).
  split.
  - apply mapM_all_some. intros [b i] Hin.
    apply in_prod_iff in Hin. destruct Hin as [Hb Hi].
    apply in_range in Hb, Hi. cbn [fst snd].
    apply gmi_index_value; lia.
  - change (range 2) with [0; 1]. cbn [list_prod].
    rewrite app_nil_r, map_app, !map_map. cbn [fst snd].
    apply Permutation_trans
      with (filter (bit_is k 0) (range (2 ^ m)) ++
            filter (bit_is k 1) (range (2 ^ m))).
    + apply Permutation_app; apply den_indices_Permutation; lia.
    + rewrite (filter_ext (bit_is k 1) (fun j => negb (bit_is k 0 j)))
        by (intros j; apply bit_is_1_negb).
      apply filter_partition_Permutation.
Qed.

Lemma gmi_index_partition_witness :
  exists l,
    mapM (fun bi => gmi_index (snd bi) 1 3 (fst bi))
         (list_prod (range 2) (range (2 ^ (3 - 1)))) = Some l /\
    Permutation l (range (2 ^ 3)).
Proof. apply (gmi_index_partition 3 1); lia. Defined.

(** ** insert_zero in arithmetic *)

Lemma formula_closed_form i k m :
  0 <= k < m -> 0 <= i < 2 ^ (m - 1) ->
  BitSubsetIndexer_formula i k m = 2 * i - i mod 2 ^ k.
Proof.
  intros Hk Hi. unfold BitSubsetIndexer_formula, mask_below.
  assert (Hleft : Z.land (Z.shiftl i 1) (mask_above k m)
                  = Z.shiftl (Z.shiftr i k) (k + 1)).
  { apply Z.bits_inj'. intros n Hn.
    rewrite Z.land_spec, testbit_mask_above, !Z.shiftl_spec by lia.
    destruct (Z.leb_spec (k + 1) n) as [Hge|Hlt].
    - rewrite Z.shiftr_spec by lia.
      replace (n - (k + 1) + k) with (n - 1) by lia.
      destruct (Z.leb_spec n m) as [Hin|Hout]; [now bool_simpl|].
      bool_simpl. symmetry. apply (testbit_above_pow2 i (m - 1)); lia.
    - bool_simpl. symmetry. apply Z.testbit_neg_r. lia. }
  rewrite Hleft, Z.land_ones by lia.
  assert (Hpow : 0 < 2 ^ k) by (apply Z.pow_pos_nonneg; lia).
  pose proof (Z.mod_pos_bound i (2 ^ k) Hpow) as Hmod.
  assert (Hdisj : Z.land (Z.shiftl (Z.shiftr i k) (k + 1)) (i mod 2 ^ k) = 0).
  { apply Z.bits_inj'. intros n Hn.
    rewrite Z.land_spec, Z.bits_0, Z.shiftl_spec by lia.
    destruct (Z.lt_ge_cases n k) as [Hlow|Hhigh].
    - rewrite Z.testbit_neg_r by lia. reflexivity.
    - rewrite Z.mod_pow2_bits_high by lia. apply andb_false_r. }
  rewrite <- (Z.lxor_lor _ _ Hdisj), <- (Z.add_nocarry_lxor _ _ Hdisj).
  rewrite Z.shiftl_mul_pow2, Z.shiftr_div_pow2 by lia.
  replace (2 ^ (k + 1)) with (2 * 2 ^ k)
    by (rewrite Z.pow_add_r by lia; rewrite Z.pow_1_r; lia).
  pose proof (Z.div_mod i (2 ^ k) ltac:(lia)) as Hdm. lia.
Qed.

Lemma closed_form_increasing i j k :
  0 <= k -> 0 <= i < j ->
  2 * i - i mod 2 ^ k < 2 * j - j mod 2 ^ k.
Proof.
  intros Hk Hij.
  assert (Hpow : 0 < 2 ^ k) by (apply Z.pow_pos_nonneg; lia).
  pose proof (Z.mod_pos_bound i (2 ^ k) Hpow) as Hmi.
  pose proof (Z.mod_pos_bound j (2 ^ k) Hpow) as Hmj.
  pose proof (Z.div_mod i (2 ^ k) ltac:(lia)) as Hdi.
  pose proof (Z.div_mod j (2 ^ k) ltac:(lia)) as Hdj.
  assert (Hq : i / 2 ^ k <= j / 2 ^ k) by (apply Z.div_le_mono; lia).
  nia.
Qed.

(** X13: for a label width [1 <= m <= 30], a position [0 <= k < m] and
    compact indices [i < j] below [2^(m-1)], [insert_zero(i,k,m)] is
    [2*i - i mod 2^k] and is strictly increasing in [i]: the symbols of a
    subset are visited in increasing index order. *)
Theorem insert_zero_increasing :
  forall m k i j : Z,
    1 <= m <= 30 -> 0 <= k < m -> 0 <= i < j -> j < 2 ^ (m - 1) ->
    exists vi vj,
      insert_zero i k m = Some vi /\ insert_zero j k m = Some vj /\
      vi = 2 * i - i mod 2 ^ k /\ vj = 2 * j - j mod 2 ^ k /\ vi < vj.
Proof.
  intros m k i j Hm Hk Hij Hj.
  pose proof (pow2_pred_le_30 m Hm) as Hp.
  exists (BitSubsetIndexer_formula i k m), (BitSubsetIndexer_formula j k m).
  rewrite !insert_zero_formula by lia.
  rewrite !formula_closed_form by lia.
  repeat split. apply closed_form_increasing; lia.
Qed.

Lemma insert_zero_increasing_witness :
  exists vi vj,
    insert_zero 5 1 4 = Some vi /\ insert_zero 6 1 4 = Some vj /\
    vi = 2 * 5 - 5 mod 2 ^ 1 /\ vj = 2 * 6 - 6 mod 2 ^ 1 /\ vi < vj.
Proof. apply (insert_zero_increasing 4 1 5 6); lia. Defined.

(** ** The derived noise level *)

Section NoiseLevel.

Local Open Scope R_scope.

Lemma Rsum_nonneg_zero {A : Type} (l : list A) (g : A -> R) :
  (forall a, In a l -> 0 <= g a) -> Rsum l g = 0 ->
  forall a, In a l -> g a = 0.
Proof.
  intros Hg Hsum a Ha.
  pose proof (Rsum_ge_term l g a Hg Ha) as Hle.
  pose proof (Hg a Ha). lra.
Qed.

Lemma cnorm2_zero c : cnorm2 c = 0 <-> c = mkc 0 0.
Proof.
  destruct c as [re im]. unfold cnorm2. cbn [Re Im]. split.
  - intros H. assert (re = 0) by nra. assert (im = 0) by nra. now subst.
  - intros E. injection E as -> ->. ring.
Qed.

Lemma Es_spec_zero C :
  C <> [] -> (Es_spec C = 0 <-> forall c, In c C -> c = mkc 0 0).
Proof.
  intros Hne. unfold Es_spec.
  assert (Hn : 0 < INR (length C)).
  { apply lt_0_INR. destruct C; [contradiction|cbn; lia]. }
  assert (Hinv : 0 < 1 / INR (length C)).
  { unfold Rdiv. rewrite Rmult_1_l. now apply Rinv_0_lt_compat. }
  split.
  - intros H c Hc. apply cnorm2_zero.
    apply (Rsum_nonneg_zero C cnorm2); [|nra|exact Hc].
    intros z _. apply cnorm2_nonneg.
  - intros H. rewrite (Rsum_zero C cnorm2); [ring|].
    intros c Hc. now apply cnorm2_zero, H.
Qed.

(** X14: the noise level the driver derives, [sqrt(Es) * pow(10,-SNR/20)],
    is never negative, whatever the SNR value, and it is zero (the case in
    which the estimators divide by zero) exactly when every point of the
    constellation is 0. *)
Theorem derived_sigma_sign :
  forall (C : list complex) (M : Z) (snr_i : R),
    (1 <= M)%Z -> M = Z.of_nat (length C) ->
    exists Es,
      symbol_energy C M = Some Es /\
      0 <= sqrt Es * pow_10 (- snr_i / 20) /\
      (sqrt Es * pow_10 (- snr_i / 20) = 0 <->
       forall c, In c C -> c = mkc 0 0).
Proof.
  intros C M snr_i HM HC. exists (Es_spec C).
  assert (Hne : C <> []).
  { intros ->. cbn in HC. lia. }
  assert (Hp : 0 < pow_10 (- snr_i / 20)).
  { unfold pow_10, Rpower. apply exp_pos. }
  pose proof (Es_spec_nonneg C) as HEs.
  pose proof (sqrt_pos (Es_spec C)) as Hsq.
  split; [now apply symbol_energy_value|].
  split; [now apply Rmult_le_pos; lra|].
  rewrite <- (Es_spec_zero C Hne). split.
  - intros H. apply sqrt_eq_0; [exact HEs|].
    destruct (Rmult_integral _ _ H) as [H0|H0]; [exact H0|lra].
  - intros ->. rewrite sqrt_0. ring.
Qed.

Lemma derived_sigma_sign_witness :
  exists Es,
    symbol_energy [mkc 1 0; mkc (-1) 0] 2 = Some Es /\
    0 <= sqrt Es * pow_10 (- 10 / 20) /\
    (sqrt Es * pow_10 (- 10 / 20) = 0 <->
     forall c, In c [mkc 1 0; mkc (-1) 0] -> c = mkc 0 0).
Proof.
  apply (derived_sigma_sign [mkc 1 0; mkc (-1) 0] 2 10);
    [lia|reflexivity].
Defined.

End NoiseLevel.

(** ** The order of the constellation points *)

Section Reordering.

Local Open Scope R_scope.

(** [MI] written as sums over the points rather than over their indices. *)
Lemma MI_spec_points C s :
  MI_spec C s =
    (0 - Rsum C (fun ci =>
           Rsum (range N_GH) (fun l1 =>
             Rsum (range N_GH) (fun l2 =>
               w_at l1 * w_at l2 *
               log2 (Rsum C (fun cj => spec_term s l1 l2 (csub cj ci)))))))
    / (IZR (Z.of_nat (length C)) * PI) + log2 (IZR (Z.of_nat (length C))).
Proof.
  unfold MI_spec. f_equal. f_equal. f_equal.
  rewrite <- (Rsum_range_C_at C (fun ci =>
           Rsum (range N_GH) (fun l1 =>
             Rsum (range N_GH) (fun l2 =>
               w_at l1 * w_at l2 *
               log2 (Rsum C (fun cj => spec_term s l1 l2 (csub cj ci))))))).
  apply Rsum_ext. intros i _.
  apply Rsum_ext. intros l1 _. apply Rsum_ext. intros l2 _.
  f_equal. f_equal. unfold T_spec.
  apply (Rsum_range_C_at C
           (fun cj => spec_term s l1 l2 (csub cj (C_at C i)))).
Qed.

Lemma MI_spec_Permutation C C' s :
  Permutation C C' -> MI_spec C s = MI_spec C' s.
Proof.
  intros Hperm. rewrite !MI_spec_points.
  rewrite <- (Permutation_length Hperm).
  f_equal. f_equal. f_equal.
  rewrite <- (Rsum_Permutation C C' _ Hperm).
  apply Rsum_ext. intros ci _.
  apply Rsum_ext. intros l1 _. apply Rsum_ext. intros l2 _.
  f_equal. f_equal. now apply Rsum_Permutation.
Qed.

(** X15: in exact arithmetic the value of [qam_eval_mi] does not depend on
    the order of the constellation points, that is on the bit labels:
    listing the same points in another order gives the same MI. *)
Theorem qam_eval_mi_order_invariant :
  forall (C C' : list complex) (M : Z) (sigma : R),
    Permutation C C' -> M = Z.of_nat (length C) -> 0 < sigma ->
    exists MI, qam_eval_mi C M sigma = Some MI /\
               qam_eval_mi C' M sigma = Some MI.
Proof.
  intros C C' M sigma Hperm HM _. exists (MI_spec C sigma). split.
  - now apply qam_eval_mi_value.
  - rewrite (MI_spec_Permutation C C' sigma Hperm).
    apply qam_eval_mi_value. now rewrite <- (Permutation_length Hperm).
Qed.

Lemma qam_eval_mi_order_invariant_witness :
  exists MI,
    qam_eval_mi [mkc 1 0; mkc 0 1; mkc (-1) 0] 3 1 = Some MI /\
    qam_eval_mi [mkc 0 1; mkc 1 0; mkc (-1) 0] 3 1 = Some MI.
Proof.
  apply (qam_eval_mi_order_invariant
           [mkc 1 0; mkc 0 1; mkc (-1) 0] [mkc 0 1; mkc 1 0; mkc (-1) 0] 3 1).
  - apply perm_swap.
  - reflexivity.
  - lra.
Defined.

End Reordering.

(** * Comparing the two estimators on one constellation *)

(** ** Soundness of the fixed-point bounds *)

Section FixedPoint.

Local Open Scope R_scope.


























End FixedPoint.

(** ** The rational tables and the sums over [C_pairs] *)

Section Certificate.

Local Open Scope R_scope.

















Lemma ln_2_bounds : 0 < ln 2 < 1.
Proof.
  split.
  - rewrite <- ln_1. apply ln_increasing; lra.
  - apply Rlt_le_trans with (ln (exp 1)); [|rewrite ln_exp; lra].
    apply ln_increasing; [lra|].
    assert (H : 1 + 1 < exp 1) by (apply exp_ineq1; lra). lra.
Qed.










End Certificate.

(** ** The bounds of the two estimators *)

Section EstimatorBounds.

Local Open Scope R_scope.

Lemma log2_pow2 m : (0 <= m)%Z -> log2 (IZR (2 ^ m)) = IZR m.
Proof.
  intros Hm. pose proof ln_2_bounds as [Hl _].
  rewrite <- (Z2Nat.id m) by exact Hm.
  rewrite <- pow_IZR, <- INR_IZR_INZ. unfold log2.
  rewrite ln_pow by lra. field. lra.
Qed.





End EstimatorBounds.
